(** * Photo frame: a shallow embedding of photos.py, display.py and webapp/app.py

    The Python program is modelled by explicit state passing over a [World]
    (file system, virtual clock, e-paper panel, event trace).  Everything the
    program reaches through a library or the network (Google's OAuth and
    Photos clients, [requests], Pillow) is an oracle of the record [Remote],
    so every theorem holds for all behaviours of those collaborators. *)

From Stdlib Require Import ZArith Lia Ascii.
From stdpp Require Import base strings list gmap.

Open Scope string_scope.
Open Scope nat_scope.
Open Scope list_scope.

(** ** Python values *)

(** Exceptions the program can meet, by class.  [HttpError] is
    googleapiclient's; the handler of [download_latest_photos] tells it apart
    from every other [Exception]. *)
Inductive exn : Type :=
| HttpError (msg : string)
| RequestException (msg : string)
| ValueError (msg : string)
| FileNotFoundError (path : string)
| NotADirectoryError (path : string)
| IsADirectoryError (path : string)
| OtherException (msg : string).

Definition exn_str (e : exn) : string :=
  match e with
  | HttpError m | RequestException m | ValueError m | OtherException m => m
  | FileNotFoundError p => "[Errno 2] No such file or directory: '" +:+ p +:+ "'"
  | NotADirectoryError p => "[Errno 20] Not a directory: '" +:+ p +:+ "'"
  | IsADirectoryError p => "[Errno 21] Is a directory: '" +:+ p +:+ "'"
  end.

Definition is_HttpError (e : exn) : bool :=
  match e with HttpError _ => true | _ => false end.

(** Outcome of a call: a value, or an exception that escapes it. *)
Inductive result (A : Type) : Type :=
| Ok (a : A)
| Raise (e : exn).
Arguments Ok {A} a.
Arguments Raise {A} e.

(** Truthiness of an optional string: [None] and [""] are falsy. *)
Definition truthy (o : option string) : bool :=
  match o with
  | None | Some "" => false
  | Some _ => true
  end.

(** [str.lower] on the ASCII letters (the only ones that can reach the three
    recognised extensions). *)
Definition lower_ascii (c : Ascii.ascii) : Ascii.ascii :=
  let n := Ascii.nat_of_ascii c in
  if (65 <=? n)%nat && (n <=? 90)%nat then Ascii.ascii_of_nat (n + 32) else c.

Fixpoint lower (s : string) : string :=
  match s with
  | EmptyString => EmptyString
  | String c s' => String (lower_ascii c) (lower s')
  end.

(** The part of [s] from its last dot on, when it has one. *)
Fixpoint from_last_dot (s : string) : option string :=
  match s with
  | EmptyString => None
  | String c s' =>
      match from_last_dot s' with
      | Some t => Some t
      | None => if Ascii.eqb c "."%char then Some s else None
      end
  end.

(** [PurePath.suffix]: [name[i:]] for [i = name.rfind('.')] when
    [0 < i < len(name) - 1], and [''] otherwise. *)
Definition path_suffix (name : string) : string :=
  match name with
  | EmptyString => ""
  | String _ rest =>
      match from_last_dot rest with
      | Some t => if (1 <? String.length t)%nat then t else ""
      | None => ""
      end
  end.

(** ** Images (Pillow) *)

Record Image : Type := mkImage {
  im_size : Z * Z;
  im_mode : string;
  im_data : string
}.

(** ** The file system

    The program only touches entries of its working directory and the
    children of [photos/], so the tree has two levels.  A [.png] written by
    [Image.save] is kept as the image it encodes (PNG is lossless). *)
Inductive Content : Type :=
| Bytes (b : string)
| Png (img : Image).

Inductive Node : Type :=
| File (c : Content) (mtime : Z)
| Folder.

Inductive Entry : Type :=
| RFile (c : Content) (mtime : Z)
| RDir (children : gmap string Node).

Inductive Event : Type :=
| Print (msg : string)
| ApiList (pageSize : Z)
| HttpGet (url : string) (filename : string)
| Sleep (secs : Z)
| CallFetcher
| PanelShow (img : Image).

Record World : Type := mkWorld {
  fs : gmap string Entry;
  clock : Z;
  panel : option Image;
  trace : list Event
}.

Definition emit (ev : Event) (w : World) : World :=
  {| fs := fs w; clock := clock w; panel := panel w; trace := trace w ++ [ev] |}.

Definition set_fs (m : gmap string Entry) (w : World) : World :=
  {| fs := m; clock := clock w; panel := panel w; trace := trace w |}.

Definition print (msg : string) : World -> World := emit (Print msg).

(** [open(path, "w")] on an entry of the working directory: the file is
    created or truncated at once. *)
Definition open_truncate (path : string) (w : World) : World :=
  set_fs (<[path := RFile (Bytes "") (clock w)]> (fs w)) w.

Definition write_root (path : string) (c : Content) (w : World) : World :=
  set_fs (<[path := RFile c (clock w)]> (fs w)) w.

(** ** Data of the remote services *)

Record Credentials : Type := mkCredentials {
  valid : bool;
  to_json : string
}.

(** A media item of the Photos API; a field is [None] when the key is absent. *)
Record MediaItem : Type := mkItem {
  baseUrl : option string;
  filename : option string;
  mimeType : option string
}.

Record Response : Type := mkResponse {
  status_code : Z;
  content : string
}.

(** What the libraries and the network answer.  Every oracle sees the world at
    the moment of the call, so an answer may depend on the clock and on all
    that happened before. *)
Record Remote : Type := mkRemote {
  (* google.oauth2.credentials.Credentials.from_authorized_user_file, on the
     text of the record file *)
  from_authorized_user_file : World -> string -> exn + Credentials;
  (* googleapiclient.discovery.build *)
  build : World -> Credentials -> option exn;
  (* service.mediaItems().list(pageSize=n).execute(); the answer is the value
     of the response's "mediaItems" key, [None] when the key is missing *)
  mediaItems_list : World -> Credentials -> Z -> exn + option (list MediaItem);
  (* requests.get *)
  requests_get : World -> string -> exn + Response;
  (* PIL.Image.open on raw bytes *)
  image_open : string -> exn + Image;
  (* pixel data computed by Image.convert and ImageOps.fit *)
  convert_data : Image -> string -> string;
  fit_data : Image -> Z * Z -> string;
  (* Flow.from_client_secrets_file on the text of client_secret.json *)
  flow_from_client_secrets : string -> option exn;
  (* flow.authorization_url, for a flow with the given redirect URI: the
     consent URL and a fresh state nonce *)
  authorization_url : World -> string -> string * string;
  (* flow.fetch_token followed by flow.credentials, for a flow with the given
     redirect URI and state, on the request URL *)
  fetch_token : World -> string -> string -> string -> exn + Credentials;
  (* what the other thread and the user do to the files while this thread
     sleeps *)
  meanwhile : World -> gmap string Entry
}.

(** ** State and exceptions *)

Definition M (A : Type) : Type := World -> result A * World.

Definition ret {A} (a : A) : M A := fun w => (Ok a, w).
Definition raise {A} (e : exn) : M A := fun w => (Raise e, w).
Definition bind {A B} (m : M A) (k : A -> M B) : M B :=
  fun w => match m w with
           | (Ok a, w') => k a w'
           | (Raise e, w') => (Raise e, w')
           end.

Notation "'let*' x ':=' m 'in' k" := (bind m (fun x => k))
  (at level 10, x name, m at level 100, k at level 200).

(** ** photos.py *)

Definition DOWNLOAD_DIR : string := "photos".

(** [str(DOWNLOAD_DIR / filename)], for a filename that is a single path
    component, as the Photos API delivers them. *)
Definition photo_path (name : string) : string := DOWNLOAD_DIR +:+ "/" +:+ name.

(** The child [name] of [photos/], when there is one; [name] is one path
    component. *)
Definition photo_node (name : string) (w : World) : option Node :=
  match fs w !! DOWNLOAD_DIR with
  | Some (RDir children) => children !! name
  | _ => None
  end.

(** [(DOWNLOAD_DIR / name).exists()]. *)
Definition photo_exists (name : string) (w : World) : bool :=
  bool_decide (is_Some (photo_node name w)).

Section Photos.
Context (R : Remote).

Definition _load_credentials : M (option Credentials) := fun w =>
  match fs w !! "token.json" with
  | None => (Ok None, w)
  | Some (RDir _) => (Raise (IsADirectoryError "token.json"), w)
  | Some (RFile (Png _) _) => (Raise (ValueError "token.json is not text"), w)
  | Some (RFile (Bytes text) _) =>
      match from_authorized_user_file R w text with
      | inl e => (Raise e, w)
      | inr creds => if valid creds then (Ok (Some creds), w) else (Ok None, w)
      end
  end.

(** The service object is the credential it was built with. *)
Definition get_service : M (option Credentials) :=
  let* creds := _load_credentials in
  match creds with
  | None => ret None
  | Some c => fun w =>
      match build R w c with
      | Some exc =>
          (Ok None, print ("Failed to build Google Photos service: " +:+ exn_str exc) w)
      | None => (Ok (Some c), w)
      end
  end.

(** [with open(file_path, "wb") as f: f.write(content)], for a filename that
    is one path component. *)
Definition write_photo (name : string) (c : string) : M unit := fun w =>
  match fs w !! DOWNLOAD_DIR with
  | Some (RDir children) =>
      match children !! name with
      | Some Folder => (Raise (IsADirectoryError (photo_path name)), w)
      | _ =>
          (Ok tt,
           set_fs (<[DOWNLOAD_DIR := RDir (<[name := File (Bytes c) (clock w)]> children)]>
                     (fs w)) w)
      end
  | Some (RFile _ _) => (Raise (NotADirectoryError (photo_path name)), w)
  | None => (Raise (FileNotFoundError (photo_path name)), w)
  end.

(** The items the loop does not [continue] past at once: their download URL
    and filename. *)
Definition downloadable (item : MediaItem) : option (string * string) :=
  let mime := default "" (mimeType item) in
  if negb (truthy (baseUrl item)) || negb (truthy (filename item))
     || negb (String.prefix "image/" mime)
  then None
  else match baseUrl item, filename item with
       | Some base_url, Some name => Some (base_url +:+ "=d", name)
       | _, _ => None
       end.

(** One turn of [for item in items].  [paths] is the Python list, which
    keeps what was appended when an exception leaves the loop; the second
    component is that exception. *)
Definition download_item (item : MediaItem) (paths : list string) (w : World)
  : list string * option exn * World :=
  match downloadable item with
  | None => (paths, None, w)
  | Some (url, name) =>
      if photo_exists name w then (paths ++ [photo_path name], None, w)
      else
        let w1 := emit (HttpGet url name) w in
        match requests_get R w url with
        | inl e => (paths, Some e, w1)
        | inr r =>
            if (status_code r =? 200)%Z then
              match write_photo name (content r) w1 with
              | (Ok _, w2) => (paths ++ [photo_path name], None, w2)
              | (Raise e, w2) => (paths, Some e, w2)
              end
            else (paths, None, w1)
        end
  end.

Fixpoint download_items (items : list MediaItem) (paths : list string) (w : World)
  : list string * option exn * World :=
  match items with
  | [] => (paths, None, w)
  | item :: rest =>
      match download_item item paths w with
      | (paths', None, w') => download_items rest paths' w'
      | stopped => stopped
      end
  end.

(** [DOWNLOAD_DIR.mkdir(parents=True, exist_ok=True)] when the directory
    does not exist. *)
Definition ensure_download_dir (w : World) : World :=
  match fs w !! DOWNLOAD_DIR with
  | None => set_fs (<[DOWNLOAD_DIR := RDir ∅]> (fs w)) w
  | Some _ => w
  end.

(** The two handlers of the [try] around the request and the loop. *)
Definition report (e : exn) : World -> World :=
  if is_HttpError e
  then print ("Google Photos API error: " +:+ exn_str e)
  else print ("Error downloading photos: " +:+ exn_str e).

(** Leaving the [try]: an exception that stopped the loop is reported, and
    [return paths] follows either way. *)
Definition return_paths (end_of_loop : list string * option exn * World)
  : result (list string) * World :=
  match end_of_loop with
  | (paths, None, w) => (Ok paths, w)
  | (paths, Some e, w) => (Ok paths, report e w)
  end.

Definition download_latest_photos (n : Z) : M (list string) :=
  let* service := get_service in
  match service with
  | None => ret []
  | Some svc => fun w =>
      let w1 := ensure_download_dir w in
      let w2 := emit (ApiList n) w1 in
      match mediaItems_list R w1 svc n with
      | inl e => (Ok [], report e w2)
      | inr response =>
          let items := default [] response in
          return_paths (download_items items [] w2)
      end
  end.

Definition suffix_is_image (name : string) : bool :=
  let s := lower (path_suffix name) in
  (s =? ".jpg")%string || (s =? ".jpeg")%string || (s =? ".png")%string.

(** [f.is_file() and f.suffix.lower() in {".jpg", ".jpeg", ".png"}]; the
    second component is [st_mtime]. *)
Definition image_file (entry : string * Node) : option (string * Z) :=
  match entry with
  | (name, File _ mtime) => if suffix_is_image name then Some (name, mtime) else None
  | (_, Folder) => None
  end.

(** [max(files, key=mtime)]: the first of the greatest in iteration order. *)
Definition later (best x : string * Z) : string * Z :=
  if (best.2 <? x.2)%Z then x else best.

Definition max_by_mtime (first : string * Z) (others : list (string * Z)) : string * Z :=
  foldl later first others.

Definition get_next_photo : M (option string) :=
  let* downloaded := download_latest_photos 1 in
  fun w =>
    match fs w !! DOWNLOAD_DIR with
    | None => (Raise (FileNotFoundError DOWNLOAD_DIR), w)
    | Some (RFile _ _) => (Raise (NotADirectoryError DOWNLOAD_DIR), w)
    | Some (RDir children) =>
        match omap image_file (map_to_list children) with
        | [] => (Ok None, w)
        | f :: others => (Ok (Some (photo_path (max_by_mtime f others).1)), w)
        end
    end.

End Photos.

(** ** display.py *)

Fixpoint strip_prefix (pre s : string) : option string :=
  match pre, s with
  | EmptyString, _ => Some s
  | String a pre', String b s' => if Ascii.eqb a b then strip_prefix pre' s' else None
  | String _ _, EmptyString => None
  end.

(** What a path of the program names: a child of [photos/] or an entry of the
    working directory. *)
Definition stat (path : string) (w : World) : option Node :=
  match strip_prefix "photos/" path with
  | Some name => photo_node name w
  | None =>
      match fs w !! path with
      | Some (RFile c m) => Some (File c m)
      | Some (RDir _) => Some Folder
      | None => None
      end
  end.

(** [image.save(path)] on an entry of the working directory, when the
    encoder and the disk do not fail once the file is open. *)
Definition image_save (path : string) (img : Image) : M unit := fun w =>
  match fs w !! path with
  | Some (RDir _) => (Raise (IsADirectoryError path), w)
  | _ => (Ok tt, write_root path (Png img) w)
  end.

Section Display.
Context (R : Remote).
(** The module state fixed at import: the resolution of the panel that
    [inky.auto] found, [None] when it found none. *)
Context (INKY_DISPLAY : option (Z * Z)).

(** [INKY_DISPLAY.resolution], or the default of the 5.7 inch panel. *)
Definition RESOLUTION : Z * Z :=
  match INKY_DISPLAY with
  | Some resolution => resolution
  | None => (600, 448)%Z
  end.

Definition WIDTH : Z := RESOLUTION.1.
Definition HEIGHT : Z := RESOLUTION.2.

(** [ImageOps.fit(image, size)]: an image of exactly [size]. *)
Definition ImageOps_fit (image : Image) (size : Z * Z) : Image :=
  {| im_size := size; im_mode := im_mode image; im_data := fit_data R image size |}.

Definition convert (image : Image) (mode : string) : Image :=
  {| im_size := im_size image; im_mode := mode; im_data := convert_data R image mode |}.

Definition display_image (image : Image) : M unit :=
  match INKY_DISPLAY with
  | None => image_save "latest_display.png" image
  | Some _ => fun w =>
      let fitted := ImageOps_fit image (WIDTH, HEIGHT) in
      (Ok tt,
       emit (PanelShow fitted)
         {| fs := fs w; clock := clock w; panel := Some fitted; trace := trace w |})
  end.

(** [Image.open(photo_path)]. *)
Definition Image_open (path : string) : M Image := fun w =>
  match stat path w with
  | Some (File (Png img) _) => (Ok img, w)
  | Some (File (Bytes b) _) =>
      match image_open R b with
      | inl e => (Raise e, w)
      | inr img => (Ok img, w)
      end
  | Some Folder => (Raise (IsADirectoryError path), w)
  | None => (Raise (FileNotFoundError path), w)
  end.

(** The world after a sleep of [secs] seconds that began at [w]: the files
    are what the rest of the system made of them in the meantime. *)
Definition asleep (secs : Z) (w : World) : World :=
  {| fs := meanwhile R w; clock := (clock w + secs)%Z; panel := panel w;
     trace := trace w ++ [Sleep secs] |}.

(** [time.sleep(secs)], for lengths that fit a signed 64-bit count of
    nanoseconds. *)
Definition time_sleep (secs : Z) : M unit := fun w =>
  if (secs <? 0)%Z then (Raise (ValueError "sleep length must be non-negative"), w)
  else (Ok tt, asleep secs w).

(** The [try] of the main loop with its handler. *)
Definition show_photo (path : string) : World -> World := fun w =>
  match (let* img := Image_open path in display_image (convert img "RGB")) w with
  | (Ok _, w') => w'
  | (Raise exc, w') => print ("Failed to display " +:+ path +:+ ": " +:+ exn_str exc) w'
  end.

(** The body of [while True]; [CallFetcher] marks the call of the fetcher. *)
Definition iteration (interval_seconds : Z) : M unit :=
  let* photo := (fun w => get_next_photo R (emit CallFetcher w)) in
  let* shown :=
    (fun w =>
       match photo with
       | Some path =>
           if truthy photo && bool_decide (is_Some (stat path w))
           then (Ok tt, show_photo path w)
           else (Ok tt, print "No photos downloaded yet." w)
       | None => (Ok tt, print "No photos downloaded yet." w)
       end) in
  time_sleep interval_seconds.

Inductive Phase : Type :=
| WaitForToken
| MainLoop
| Crashed (e : exn).

(** One evaluation of a loop condition with the body it guards. *)
Definition loop_step (interval_seconds : Z) (st : Phase * World) : Phase * World :=
  match st with
  | (WaitForToken, w) =>
      if bool_decide (is_Some (fs w !! "token.json")) then (MainLoop, w)
      else match time_sleep 5 w with
           | (Ok _, w') => (WaitForToken, w')
           | (Raise e, w') => (Crashed e, w')
           end
  | (MainLoop, w) =>
      match iteration interval_seconds w with
      | (Ok _, w') => (MainLoop, w')
      | (Raise e, w') => (Crashed e, w')
      end
  | (Crashed e, w) => (Crashed e, w)
  end.

Definition display_photos_loop (interval_seconds : Z) (fuel : nat) (w : World)
  : Phase * World :=
  Nat.iter fuel (loop_step interval_seconds) (WaitForToken, w).

End Display.

(** ** webapp/app.py *)

Record HttpResponse : Type := mkHttpResponse {
  status : Z;
  body : string;
  location : option string
}.

Definition redirect (url : string) : HttpResponse :=
  {| status := 302; body := ""; location := Some url |}.

(** The states of the files that another thread can see while
    [with open("token.json", "w") as token_file: token_file.write(json)] runs:
    after [open], which truncates, and after the block, which flushes the text
    and closes. *)
Definition save_token_states (json : string) (w : World) : list World :=
  let opened := open_truncate "token.json" w in
  [opened; write_root "token.json" (Bytes json) opened].

Definition save_token (json : string) : M unit := fun w =>
  match fs w !! "token.json" with
  | Some (RDir _) => (Raise (IsADirectoryError "token.json"), w)
  | _ =>
      let token_file := open_truncate "token.json" w in
      (Ok tt, write_root "token.json" (Bytes json) token_file)
  end.

Section WebApp.
Context (R : Remote) (host_ip : string).

(** [Flow.from_client_secrets_file("client_secret.json", ...)]. *)
Definition load_flow : M unit := fun w =>
  match fs w !! "client_secret.json" with
  | None => (Raise (FileNotFoundError "client_secret.json"), w)
  | Some (RDir _) => (Raise (IsADirectoryError "client_secret.json"), w)
  | Some (RFile (Png _) _) => (Raise (ValueError "client_secret.json is not text"), w)
  | Some (RFile (Bytes text) _) =>
      match flow_from_client_secrets R text with
      | Some e => (Raise e, w)
      | None => (Ok tt, w)
      end
  end.

Definition redirect_uri : string := "http://" +:+ host_ip +:+ ":5000/oauth2callback".

(** A handler takes the session and the world and leaves both. *)
Definition index (session : gmap string string) (w : World)
  : result HttpResponse * gmap string string * World :=
  let configured := bool_decide (is_Some (fs w !! "token.json")) in
  (Ok {| status := 200;
         body := if configured then "configured" else "not configured";
         location := None |}, session, w).

Definition google_auth (session : gmap string string) (w : World)
  : result HttpResponse * gmap string string * World :=
  match fs w !! "client_secret.json" with
  | None =>
      (Ok {| status := 500;
             body := "client_secret.json is missing.  Upload it to the project root.";
             location := None |}, session, w)
  | Some _ =>
      match load_flow w with
      | (Raise e, w') => (Raise e, session, w')
      | (Ok _, w') =>
          let '(url, state) := authorization_url R w' redirect_uri in
          (Ok (redirect url), <["state" := state]> session, w')
      end
  end.

Definition oauth2callback (request_url : string) (session : gmap string string)
  (w : World) : result HttpResponse * gmap string string * World :=
  let state := session !! "state" in
  if negb (truthy state) then
    (Ok {| status := 400;
           body := "Session expired.  Start the OAuth flow again.";
           location := None |}, session, w)
  else
    match (let* flow := load_flow in
           let* creds :=
             (fun w' => match fetch_token R w' redirect_uri (default "" state)
                                request_url with
                        | inl e => (Raise e, w')
                        | inr c => (Ok c, w')
                        end) in
           save_token (to_json creds)) w with
    | (Ok _, w') => (Ok (redirect "/"), session, w')
    | (Raise e, w') => (Raise e, session, w')
    end.

End WebApp.

(** ** Vocabulary of the statements *)

(** The events of a fetch that starts at [w]: messages, the listing, and
    requests for filenames that are absent at [w]. *)
Definition fetch_event (w : World) (ev : Event) : Prop :=
  match ev with
  | Print _ | ApiList _ => True
  | HttpGet _ name => photo_node name w = None
  | Sleep _ | CallFetcher | PanelShow _ => False
  end.

(** [w'] comes after [w] in a run that only adds photos: every child of
    [photos/] at [w] is still there at [w'], unchanged, and what happened in
    between are events of a fetch. *)
Definition grows (w w' : World) : Prop :=
  (∀ name node, photo_node name w = Some node → photo_node name w' = Some node) ∧
  ∃ evs, trace w' = trace w ++ evs ∧ Forall (fetch_event w) evs.

(** The media items that [download_latest_photos n] loops over at [w]: the
    list the service answered with, empty when the function never got one. *)
Definition listed_items (R : Remote) (n : Z) (w : World) : list MediaItem :=
  match get_service R w with
  | (Ok (Some svc), w0) =>
      match mediaItems_list R (ensure_download_dir w0) svc n with
      | inr response => default [] response
      | inl _ => []
      end
  | _ => []
  end.

(** The listing that [download_latest_photos n] gets at [w] is
    [pre ++ item :: post], and the loop comes to [item] holding [paths1] in the
    world [w1]. *)
Definition reaches (R : Remote) (n : Z) (w : World) (pre : list MediaItem)
  (item : MediaItem) (post : list MediaItem) (paths1 : list string) (w1 : World) : Prop :=
  ∃ svc w0,
    get_service R w = (Ok (Some svc), w0) ∧
    mediaItems_list R (ensure_download_dir w0) svc n = inr (Some (pre ++ item :: post)) ∧
    download_items R pre [] (emit (ApiList n) (ensure_download_dir w0)) = (paths1, None, w1).

(** The text of the record file, when it is a text file. *)
Definition record_text (w : World) : option string :=
  match fs w !! "token.json" with
  | Some (RFile (Bytes text) _) => Some text
  | _ => None
  end.

(** The number of times the loop has called the fetcher. *)
Fixpoint count_calls (evs : list Event) : nat :=
  match evs with
  | [] => 0
  | CallFetcher :: rest => S (count_calls rest)
  | _ :: rest => count_calls rest
  end.

Definition fetcher_calls (w : World) : nat := count_calls (trace w).

(** [w'] comes after [w] and the fetcher was not called in between. *)
Definition no_call (w w' : World) : Prop :=
  ∃ evs, trace w' = trace w ++ evs ∧ count_calls evs = 0.

(** ** Test doubles

    Concrete collaborators and worlds on which the functions are evaluated. *)
Module Fake.

Definition creds : Credentials := {| valid := true; to_json := "{token}" |}.

(** A record file parses unless it is empty; the text [expired] stands for a
    record whose access token is out of date. *)
Definition parse (w : World) (text : string) : exn + Credentials :=
  if (text =? "")%string
  then inl (ValueError "Expecting value: line 1 column 1 (char 0)")
  else inr {| valid := negb (text =? "expired")%string; to_json := text |}.

Definition pixel : Image := {| im_size := (1, 1)%Z; im_mode := "RGB"; im_data := "x" |}.

(** A service that answers every listing with [items], whatever the page
    size, and every download with [get]. *)
Definition remote (items : list MediaItem) (get : string → exn + Response) : Remote :=
  {| from_authorized_user_file := parse;
     build := λ _ _, None;
     mediaItems_list := λ _ _ _, inr (Some items);
     requests_get := λ _ url, get url;
     image_open := λ _, inr pixel;
     convert_data := λ img _, im_data img;
     fit_data := λ img _, im_data img;
     flow_from_client_secrets := λ _, None;
     authorization_url := λ _ _, ("https://accounts.google.com/o/oauth2/auth", "nonce-1");
     fetch_token := λ _ _ _ _, inr creds;
     meanwhile := fs |}.

(** The same collaborators, with [f] for what happens to the files during
    a sleep. *)
Definition with_meanwhile (f : World → gmap string Entry) (R : Remote) : Remote :=
  {| from_authorized_user_file := from_authorized_user_file R;
     build := build R;
     mediaItems_list := mediaItems_list R;
     requests_get := requests_get R;
     image_open := image_open R;
     convert_data := convert_data R;
     fit_data := fit_data R;
     flow_from_client_secrets := flow_from_client_secrets R;
     authorization_url := authorization_url R;
     fetch_token := fetch_token R;
     meanwhile := f |}.

Definition jpeg (name : string) : MediaItem :=
  {| baseUrl := Some ("https://lh3.test/" +:+ name);
     filename := Some name;
     mimeType := Some "image/jpeg" |}.

Definition ok_200 (url : string) : exn + Response :=
  inr {| status_code := 200; content := "bytes of " +:+ url |}.

(** Downloads that succeed except for the item [bad], which meets [outcome]. *)
Definition get_except (bad : string) (outcome : exn + Response) (url : string)
  : exn + Response :=
  if (url =? "https://lh3.test/" +:+ bad +:+ "=d")%string then outcome else ok_200 url.

(** The working directory right after a successful authorisation. *)
Definition authorized : World :=
  {| fs := {[ "token.json" := RFile (Bytes "{token}") 0;
              "client_secret.json" := RFile (Bytes "{secret}") 0 ]};
     clock := 100; panel := None; trace := [] |}.

(** The same before any authorisation. *)
Definition fresh : World :=
  {| fs := {[ "client_secret.json" := RFile (Bytes "{secret}") 0 ]};
     clock := 100; panel := None; trace := [] |}.

(** A frame whose record has gone out of date before any photo was fetched:
    [token.json] is there, [photos/] is not. *)
Definition stale : World :=
  {| fs := {[ "token.json" := RFile (Bytes "expired") 0;
              "client_secret.json" := RFile (Bytes "{secret}") 0 ]};
     clock := 100; panel := None; trace := [] |}.

(** The user completes the authorisation during the sleep that ends at
    second [t]. *)
Definition authorise_at (t : Z) (w : World) : gmap string Entry :=
  if (clock w + 5 =? t)%Z
  then <["token.json" := RFile (Bytes "{token}") t]> (fs w)
  else fs w.

(** The user deletes the record during every sleep. *)
Definition revoke (w : World) : gmap string Entry := delete "token.json" (fs w).

(** An authorised frame that already holds one photo. *)
Definition cached : World :=
  set_fs (<[DOWNLOAD_DIR := RDir {[ "old.png" := File (Bytes "old") 50 ]}]> (fs authorized))
    authorized.

End Fake.

(** The working directory while the callback handler is between [open] and
    the end of its [with] block: the record file exists and is empty. *)
Definition mid_save : World := open_truncate "token.json" Fake.authorized.

(** A portrait photograph of 3000 by 4000 pixels. *)
Definition portrait : Image :=
  {| im_size := (3000, 4000)%Z; im_mode := "RGB"; im_data := "portrait" |}.

(** ** Vocabulary of the further statements *)

(** The local paths of the items of a listing that the loop does not skip, in
    the order of the listing. *)
Definition downloadable_paths (items : list MediaItem) : list string :=
  omap (λ item, (λ d : string * string, photo_path d.2) <$> downloadable item) items.

(** [photos/] is a directory. *)
Definition photos_is_dir (w : World) : Prop :=
  ∃ children, fs w !! DOWNLOAD_DIR = Some (RDir children).

(** The character [c] occurs in [s]. *)
Fixpoint has_char (c : Ascii.ascii) (s : string) : bool :=
  match s with
  | EmptyString => false
  | String a s' => Ascii.eqb a c || has_char c s'
  end.

(** The longest name of a directory entry on the Linux file systems. *)
Definition NAME_MAX : nat := 255.

(** A filename that is one component of a path: not empty, no separator and
    no NUL, neither [.] nor [..], and short enough for a directory entry.  For
    such a name [DOWNLOAD_DIR / name] is the child [name] of [photos/], which
    is where [photo_path], [photo_node] and [write_photo] put it.  For any
    other name pathlib joins differently (an absolute name replaces
    [photos], [..] leaves it), and the statements below do not speak of it. *)
Definition plain_name (name : string) : bool :=
  negb (name =? "")%string && negb (has_char "/"%char name)
  && negb (has_char Ascii.zero name)
  && negb (name =? ".")%string && negb (name =? "..")%string
  && (String.length name <=? NAME_MAX).

(** The filename of [item], when the loop does not skip it, is plain. *)
Definition plain_item (item : MediaItem) : Prop :=
  ∀ url name, downloadable item = Some (url, name) → plain_name name = true.

(** The most seconds that [time.sleep] takes: its argument is turned into a
    signed 64-bit count of nanoseconds, and it raises [OverflowError] beyond
    that. *)
Definition SLEEP_MAX : Z := 9223372036.

(** An authorised frame in which a directory has the name of a photo. *)
Definition with_folder : World :=
  set_fs (<[DOWNLOAD_DIR := RDir {[ "a.jpg" := Folder ]}]> (fs Fake.authorized))
    Fake.authorized.

(** ** display.py: the QR code *)

(** What the [qrcode] library, Pillow and the panel driver answer while the
    QR code is drawn and shown. *)
Record QrLib : Type := mkQrLib {
  (* qrcode.QRCode(box_size=2, border=1), add_data(url), make(fit=True),
     make_image(fill_color="black", back_color="white").convert("RGB") *)
  qr_make_image : string -> exn + Image;
  (* the pixels of Image.new("RGB", size, "white") *)
  white_canvas : Z * Z -> exn + string;
  (* the pixels of qr_img.resize(size, Image.NEAREST) *)
  resize_nearest : Image -> Z * Z -> exn + string;
  (* the pixels of the canvas after canvas.paste(qr_img, box) *)
  paste_data : Image -> Image -> Z * Z -> string;
  (* canvas.save("qr.png"): [None] when the file is written; otherwise the
     exception and what the entry [qr.png] is afterwards (no entry, the entry
     as it was, a truncated or half-written file) *)
  canvas_save : World -> Image -> option (exn * option Entry);
  (* INKY_DISPLAY.set_border, set_image and show: the exception of the driver
     when the hardware fails *)
  panel_commit : World -> Image -> option exn
}.

(** [min(WIDTH, HEIGHT) - 20]. *)
Definition qr_size (width height : Z) : Z := (Z.min width height - 20)%Z.

(** [((WIDTH - qr_size) // 2, (HEIGHT - qr_size) // 2)]. *)
Definition qr_box (width height : Z) : Z * Z :=
  (((width - qr_size width height) / 2)%Z, ((height - qr_size width height) / 2)%Z).

Section ShowQrCode.
Context (Q : QrLib) (INKY_DISPLAY : option (Z * Z)).

(** The border colour that [set_border] sets is not part of the panel state
    kept in the world. *)
Definition show_qr_code (url : string) : M unit := fun w =>
  let width := WIDTH INKY_DISPLAY in
  let height := HEIGHT INKY_DISPLAY in
  match qr_make_image Q url with
  | inl e => (Raise e, w)
  | inr made =>
      match white_canvas Q (width, height) with
      | inl e => (Raise e, w)
      | inr white =>
          let canvas := {| im_size := (width, height); im_mode := "RGB"; im_data := white |} in
          let size := qr_size width height in
          match resize_nearest Q made (size, size) with
          | inl e => (Raise e, w)
          | inr scaled =>
              let qr_img :=
                {| im_size := (size, size); im_mode := im_mode made; im_data := scaled |} in
              let pasted :=
                {| im_size := im_size canvas; im_mode := im_mode canvas;
                   im_data := paste_data Q canvas qr_img (qr_box width height) |} in
              match INKY_DISPLAY with
              | Some _ =>
                  match panel_commit Q w pasted with
                  | Some e => (Raise e, w)
                  | None =>
                      (Ok tt,
                       emit (PanelShow pasted)
                         {| fs := fs w; clock := clock w; panel := Some pasted;
                            trace := trace w |})
                  end
              | None =>
                  match canvas_save Q w pasted with
                  | Some (e, Some entry) => (Raise e, set_fs (<["qr.png" := entry]> (fs w)) w)
                  | Some (e, None) => (Raise e, set_fs (delete "qr.png" (fs w)) w)
                  | None => (Ok tt, write_root "qr.png" (Png pasted) w)
                  end
              end
          end
      end
  end.

End ShowQrCode.

(** ** main.py *)

(** The ASCII characters for which [str.isspace] holds; the output of
    [hostname -I] is ASCII. *)
Definition is_space (c : Ascii.ascii) : bool :=
  let n := Ascii.nat_of_ascii c in
  ((9 <=? n) && (n <=? 13)) || ((28 <=? n) && (n <=? 32)).

Fixpoint lstrip (s : string) : string :=
  match s with
  | EmptyString => EmptyString
  | String c s' => if is_space c then lstrip s' else s
  end.

Fixpoint rstrip (s : string) : string :=
  match s with
  | EmptyString => EmptyString
  | String c s' =>
      match rstrip s' with
      | EmptyString => if is_space c then EmptyString else String c EmptyString
      | kept => String c kept
      end
  end.

(** [str.strip()]. *)
Definition strip (s : string) : string := lstrip (rstrip s).

(** [str.split()] with [word] the characters of the word being read: the
    words are the maximal runs without whitespace. *)
Fixpoint split_from (word : string) (s : string) : list string :=
  match s with
  | EmptyString => match word with EmptyString => [] | _ => [word] end
  | String c s' =>
      if is_space c
      then match word with
           | EmptyString => split_from EmptyString s'
           | _ => word :: split_from EmptyString s'
           end
      else split_from (word +:+ String c EmptyString) s'
  end.

Definition split (s : string) : list string := split_from EmptyString s.

Definition loopback (ip : string) : bool := String.prefix "127." ip.

(** Some character of [s] is whitespace. *)
Fixpoint has_space (s : string) : bool :=
  match s with
  | EmptyString => false
  | String c s' => is_space c || has_space s'
  end.

(** The [for] loop of [get_ip_address] with its fallback. *)
Fixpoint first_non_loopback (ips : list string) : string :=
  match ips with
  | [] => "127.0.0.1"
  | ip :: rest => if negb (loopback ip) then ip else first_non_loopback rest
  end.

(** [get_ip_address], on what [hostname -I] printed. *)
Definition get_ip_address (hostname_output : string) : string :=
  first_non_loopback (split (strip hostname_output)).

(** The test service of [Fake.remote], with a listing request that fails. *)
Definition failing_listing (e : exn) : Remote :=
  let R := Fake.remote [] Fake.ok_200 in
  {| from_authorized_user_file := from_authorized_user_file R;
     build := build R;
     mediaItems_list := λ _ _ _, inl e;
     requests_get := requests_get R;
     image_open := image_open R;
     convert_data := convert_data R;
     fit_data := fit_data R;
     flow_from_client_secrets := flow_from_client_secrets R;
     authorization_url := authorization_url R;
     fetch_token := fetch_token R;
     meanwhile := meanwhile R |}.

(** The test service of [Fake.remote], with a decoder that refuses every
    file. *)
Definition undecodable : Remote :=
  let R := Fake.remote [] Fake.ok_200 in
  {| from_authorized_user_file := from_authorized_user_file R;
     build := build R;
     mediaItems_list := mediaItems_list R;
     requests_get := requests_get R;
     image_open := λ _, inl (OtherException "cannot identify image file");
     convert_data := convert_data R;
     fit_data := fit_data R;
     flow_from_client_secrets := flow_from_client_secrets R;
     authorization_url := authorization_url R;
     fetch_token := fetch_token R;
     meanwhile := meanwhile R |}.

(** The test service of [Fake.remote], with a client library that cannot
    build the service. *)
Definition failing_build (e : exn) : Remote :=
  let R := Fake.remote [] Fake.ok_200 in
  {| from_authorized_user_file := from_authorized_user_file R;
     build := λ _ _, Some e;
     mediaItems_list := mediaItems_list R;
     requests_get := requests_get R;
     image_open := image_open R;
     convert_data := convert_data R;
     fit_data := fit_data R;
     flow_from_client_secrets := flow_from_client_secrets R;
     authorization_url := authorization_url R;
     fetch_token := fetch_token R;
     meanwhile := meanwhile R |}.

(** * Proofs *)

(** ** Suffixes as [pathlib] computes them *)

Example suffix_upper : path_suffix "IMG_0001.JPG" = ".JPG".
Proof. reflexivity. Qed.

Example suffix_last_dot : path_suffix "a.tar.gz" = ".gz".
Proof. reflexivity. Qed.

Example suffix_hidden : path_suffix ".jpg" = "".
Proof. reflexivity. Qed.

Example suffix_trailing_dot : path_suffix "a." = "".
Proof. reflexivity. Qed.

Example image_any_case : suffix_is_image "x.JpEg" = true ∧ suffix_is_image "x.PNG" = true.
Proof. split; reflexivity. Qed.

Example image_not_gif : suffix_is_image "x.gif" = false ∧ suffix_is_image "jpg" = false.
Proof. split; reflexivity. Qed.

(** ** The fetcher never replaces a photo *)

Lemma grows_refl w : grows w w.
Proof. split; [done|]. exists []. by rewrite app_nil_r. Qed.

Lemma fetch_event_earlier w1 w2 ev :
  (∀ name node, photo_node name w1 = Some node → photo_node name w2 = Some node) →
  fetch_event w2 ev → fetch_event w1 ev.
Proof.
  intros Hk. destruct ev as [| |url name| | |]; simpl; try done.
  intros H2. destruct (photo_node name w1) as [node|] eqn:E; [|done].
  apply Hk in E. congruence.
Qed.

Lemma grows_trans w1 w2 w3 : grows w1 w2 → grows w2 w3 → grows w1 w3.
Proof.
  intros [Hk1 (evs1 & Ht1 & Hg1)] [Hk2 (evs2 & Ht2 & Hg2)]. split.
  - intros name node H. by apply Hk2, Hk1.
  - exists (evs1 ++ evs2). split; [by rewrite Ht2, Ht1, app_assoc|].
    apply Forall_app. split; [done|].
    eapply Forall_impl; [exact Hg2|]. intros ev. by apply fetch_event_earlier.
Qed.

Lemma grows_emit ev w : fetch_event w ev → grows w (emit ev w).
Proof. intros Hev. split; [done|]. exists [ev]. split; [done|]. by constructor. Qed.

Lemma grows_print msg w : grows w (print msg w).
Proof. by apply grows_emit. Qed.

Section PhotosFacts.
Context (R : Remote).

Lemma write_photo_ok name c w w' :
  write_photo name c w = (Ok tt, w') →
  photo_node name w' = Some (File (Bytes c) (clock w)) ∧
  (∀ other, other ≠ name → photo_node other w' = photo_node other w) ∧
  trace w' = trace w.
Proof.
  unfold write_photo, photo_node.
  destruct (fs w !! DOWNLOAD_DIR) as [[?|children]|] eqn:E; try discriminate.
  destruct (children !! name) as [[]|]; intros [= <-]; simpl;
    rewrite lookup_insert_eq;
    (split; [by rewrite lookup_insert_eq|]);
    (split; [by intros; rewrite lookup_insert_ne|done]).
Qed.

Lemma write_photo_raise name c w e w' :
  write_photo name c w = (Raise e, w') → w' = w.
Proof.
  unfold write_photo.
  destruct (fs w !! DOWNLOAD_DIR) as [[?|children]|]; [congruence| |congruence].
  destruct (children !! name) as [[]|]; congruence.
Qed.

Lemma grows_write_photo name c w w' :
  photo_node name w = None →
  write_photo name c w = (Ok tt, w') → grows w w'.
Proof.
  intros Hnone (Hn & Ho & Ht)%write_photo_ok. split.
  - intros other node H. destruct (decide (other = name)) as [->|Hne]; [congruence|].
    by rewrite Ho.
  - exists []. by rewrite Ht, app_nil_r.
Qed.

(** One turn of the loop: what it appends and what it does to the world. *)
Lemma download_item_spec item paths w paths' oe w' :
  download_item R item paths w = (paths', oe, w') →
  grows w w' ∧
  ∃ new, paths' = paths ++ new ∧ length new ≤ 1 ∧
         ∀ p, p ∈ new → ∃ name, p = photo_path name ∧ is_Some (photo_node name w').
Proof.
  unfold download_item.
  destruct (downloadable item) as [[url name]|].
  2:{ intros [= <- <- <-]. split; [apply grows_refl|].
      exists []. rewrite app_nil_r. split_and!; [done|simpl; lia|].
      intros p H. by apply elem_of_nil in H. }
  unfold photo_exists. case_bool_decide as Hex.
  { intros [= <- <- <-]. split; [apply grows_refl|].
    exists [photo_path name]. split_and!; [done|simpl; lia|].
    intros p ->%list_elem_of_singleton. eauto. }
  assert (photo_node name w = None) as Hnone.
  { destruct (photo_node name w) eqn:E; [|done]. destruct Hex. eauto. }
  assert (grows w (emit (HttpGet url name) w)) as Hget by (by apply grows_emit).
  assert (∃ new : list string, paths = paths ++ new ∧ length new ≤ 1 ∧
            ∀ p, p ∈ new → ∃ name, p = photo_path name ∧ is_Some (photo_node name w'))
    as Hnothing.
  { exists []. rewrite app_nil_r. split_and!; [done|simpl; lia|].
    intros p H. by apply elem_of_nil in H. }
  destruct (requests_get R w url) as [e|r].
  { intros [= <- <- <-]. done. }
  destruct (status_code r =? 200)%Z.
  2:{ intros [= <- <- <-]. done. }
  destruct (write_photo name (content r) (emit (HttpGet url name) w))
    as [[[]|e] w2] eqn:Ew.
  - intros [= <- <- <-]. split.
    + eapply grows_trans; [exact Hget|]. eapply grows_write_photo; [|exact Ew]. done.
    + exists [photo_path name]. split_and!; [done|simpl; lia|].
      intros p ->%list_elem_of_singleton. exists name. split; [done|].
      apply write_photo_ok in Ew as (-> & _). eauto.
  - intros [= <- <- <-]. apply write_photo_raise in Ew as ->. done.
Qed.

Lemma photo_node_is_Some_grows name w w' :
  grows w w' → is_Some (photo_node name w) → is_Some (photo_node name w').
Proof. intros [Hk _] [node H]. exists node. by apply Hk. Qed.

Lemma download_items_spec items : ∀ paths w paths' oe w',
  download_items R items paths w = (paths', oe, w') →
  grows w w' ∧
  ∃ new, paths' = paths ++ new ∧ length new ≤ length items ∧
         ∀ p, p ∈ new → ∃ name, p = photo_path name ∧ is_Some (photo_node name w').
Proof.
  induction items as [|item rest IH]; intros paths w paths' oe w'; simpl.
  { intros [= <- <- <-]. split; [apply grows_refl|].
    exists []. rewrite app_nil_r. split_and!; [done|simpl; lia|].
    intros p H. by apply elem_of_nil in H. }
  destruct (download_item R item paths w) as [[paths1 oe1] w1] eqn:E1.
  apply download_item_spec in E1 as (Hg1 & new1 & -> & Hlen1 & Hex1).
  destruct oe1 as [e|].
  { intros [= <- <- <-]. split; [done|].
    exists new1. split_and!; [done|lia|done]. }
  intros (Hg2 & new2 & -> & Hlen2 & Hex2)%IH.
  split; [by eapply grows_trans|].
  exists (new1 ++ new2). split_and!.
  - by rewrite app_assoc.
  - rewrite length_app. lia.
  - intros p [H|H]%elem_of_app; [|by apply Hex2].
    destruct (Hex1 _ H) as (name & -> & Hsome).
    exists name. split; [done|]. by eapply photo_node_is_Some_grows.
Qed.

End PhotosFacts.

Section FetchLatest.
Context (R : Remote).

Lemma _load_credentials_world w : (_load_credentials R w).2 = w.
Proof.
  unfold _load_credentials.
  destruct (fs w !! "token.json") as [[[text|img] mtime|children]|]; try done.
  destruct (from_authorized_user_file R w text) as [e|creds]; [done|].
  by destruct (valid creds).
Qed.

Lemma get_service_spec w :
  match get_service R w with
  | (Raise e, w') => w' = w ∧ _load_credentials R w = (Raise e, w)
  | (Ok _, w') => grows w w'
  end.
Proof.
  unfold get_service, bind. pose proof (_load_credentials_world w) as Hw.
  destruct (_load_credentials R w) as [[[creds|]|e] w0]; simpl in Hw; subst w0.
  - destruct (build R w creds); [apply grows_print|apply grows_refl].
  - apply grows_refl.
  - done.
Qed.

Lemma grows_ensure_download_dir w : grows w (ensure_download_dir w).
Proof.
  unfold ensure_download_dir.
  destruct (fs w !! DOWNLOAD_DIR) eqn:E; [apply grows_refl|]. split.
  - intros name node. unfold photo_node. by rewrite E.
  - exists []. by rewrite app_nil_r.
Qed.

Lemma grows_report e w : grows w (report e w).
Proof. unfold report. destruct (is_HttpError e); apply grows_print. Qed.

Lemma download_latest_photos_spec n w :
  match download_latest_photos R n w with
  | (Raise e, w') => w' = w ∧ _load_credentials R w = (Raise e, w)
  | (Ok paths, w') =>
      grows w w' ∧ length paths ≤ length (listed_items R n w) ∧
      ∀ p, p ∈ paths → ∃ name, p = photo_path name ∧ is_Some (photo_node name w')
  end.
Proof.
  unfold download_latest_photos, listed_items, bind.
  pose proof (get_service_spec w) as Hs.
  destruct (get_service R w) as [[[svc|]|e] w0]; [| |done].
  2:{ split_and!; [done|simpl; lia|]. intros p H. by apply elem_of_nil in H. }
  pose proof (grows_ensure_download_dir w0) as Hd.
  set (w1 := ensure_download_dir w0) in *.
  assert (grows w (emit (ApiList n) w1)) as Hlist.
  { eapply grows_trans; [exact Hs|]. eapply grows_trans; [exact Hd|].
    by apply grows_emit. }
  destruct (mediaItems_list R w1 svc n) as [e|response].
  { split_and!; [|simpl; lia|].
    - eapply grows_trans; [exact Hlist|apply grows_report].
    - intros p H. by apply elem_of_nil in H. }
  destruct (download_items R (default [] response) [] (emit (ApiList n) w1))
    as [[paths oe] w3] eqn:E.
  apply download_items_spec in E as (Hg & new & -> & Hlen & Hex). simpl.
  unfold return_paths.
  assert (grows w w3) as Hw3 by (by eapply grows_trans).
  destruct oe as [e|]; (split_and!; [|done|]); try done.
  - eapply grows_trans; [exact Hw3|apply grows_report].
  - intros p Hp. destruct (Hex _ Hp) as (name & -> & Hsome). exists name.
    split; [done|]. eapply photo_node_is_Some_grows; [apply grows_report|done].
Qed.

End FetchLatest.

Example download_two :
  (download_latest_photos (Fake.remote [Fake.jpeg "a.jpg"; Fake.jpeg "b.jpg"] Fake.ok_200)
     2 Fake.authorized).1
  = Ok ["photos/a.jpg"; "photos/b.jpg"].
Proof. vm_compute. reflexivity. Qed.

(** ** Claims about the Photo Fetcher *)

Section CachedPaths.
Context (R : Remote).

(** A directory among the photos was there before the turn: the loop only
    ever creates regular files. *)
Lemma folder_before_download_item item paths w paths' oe w' name :
  download_item R item paths w = (paths', oe, w') →
  photo_node name w' = Some Folder → photo_node name w = Some Folder.
Proof.
  unfold download_item.
  destruct (downloadable item) as [[url written]|]; [|by intros [= <- <- <-]].
  destruct (photo_exists written w); [by intros [= <- <- <-]|].
  destruct (requests_get R w url) as [e|r]; [by intros [= <- <- <-]|].
  destruct (status_code r =? 200)%Z; [|by intros [= <- <- <-]].
  destruct (write_photo written (content r) (emit (HttpGet url written) w))
    as [[[]|e] w2] eqn:Ew; intros [= <- <- <-].
  - apply write_photo_ok in Ew as (Hnew & Hother & _).
    destruct (decide (name = written)) as [->|Hne]; [congruence|].
    by rewrite (Hother name Hne).
  - by apply write_photo_raise in Ew as ->.
Qed.

(** What a turn appends is the local path of its item, and it names a regular
    file unless a directory of that name was in the way. *)
Lemma download_item_paths item paths w paths' oe w' :
  download_item R item paths w = (paths', oe, w') →
  ∃ new, paths' = paths ++ new ∧
    ∀ p, p ∈ new →
      ∃ url name, downloadable item = Some (url, name) ∧ p = photo_path name ∧
        ((∃ c mtime, photo_node name w' = Some (File c mtime))
         ∨ photo_node name w = Some Folder).
Proof.
  unfold download_item.
  assert (∃ new : list string, paths = paths ++ new ∧
            ∀ p, p ∈ new →
              ∃ url name, downloadable item = Some (url, name) ∧ p = photo_path name ∧
                ((∃ c mtime, photo_node name w' = Some (File c mtime))
                 ∨ photo_node name w = Some Folder)) as Hnothing.
  { exists []. rewrite app_nil_r. split; [done|]. intros p H. by apply elem_of_nil in H. }
  destruct (downloadable item) as [[url name]|] eqn:Hd; [|by intros [= <- <- <-]].
  unfold photo_exists. case_bool_decide as Hex.
  { intros [= <- <- <-]. exists [photo_path name]. split; [done|].
    intros p ->%list_elem_of_singleton. exists url, name. split_and!; [done..|].
    destruct Hex as [[c mtime|] Hnode]; eauto. }
  destruct (requests_get R w url) as [e|r]; [by intros [= <- <- <-]|].
  destruct (status_code r =? 200)%Z; [|by intros [= <- <- <-]].
  destruct (write_photo name (content r) (emit (HttpGet url name) w))
    as [[[]|e] w2] eqn:Ew; intros [= <- <- <-]; [|done].
  exists [photo_path name]. split; [done|].
  intros p ->%list_elem_of_singleton. exists url, name. split_and!; [done..|].
  apply write_photo_ok in Ew as (Hnew & _). eauto.
Qed.

Lemma download_items_paths items : ∀ paths w paths' oe w',
  download_items R items paths w = (paths', oe, w') →
  (∀ name, photo_node name w' = Some Folder → photo_node name w = Some Folder) ∧
  ∃ new, paths' = paths ++ new ∧
    ∀ p, p ∈ new →
      ∃ item url name,
        item ∈ items ∧ downloadable item = Some (url, name) ∧ p = photo_path name ∧
        ((∃ c mtime, photo_node name w' = Some (File c mtime))
         ∨ photo_node name w = Some Folder).
Proof.
  induction items as [|item rest IH]; intros paths w paths' oe w'; simpl.
  { intros [= <- <- <-]. split; [done|]. exists []. rewrite app_nil_r.
    split; [done|]. intros p H. by apply elem_of_nil in H. }
  destruct (download_item R item paths w) as [[paths1 oe1] w1] eqn:E1.
  pose proof (λ name, folder_before_download_item _ _ _ _ _ _ name E1) as Hbefore1.
  apply download_item_paths in E1 as (new1 & -> & Hnew1).
  destruct oe1 as [e|].
  { intros [= <- <- <-]. split; [done|]. exists new1. split; [done|].
    intros p Hp. destruct (Hnew1 p Hp) as (url & name & Hd & -> & Hnode).
    exists item, url, name. split_and!; [left|done..]. }
  intros Hrest. pose proof (download_items_spec R _ _ _ _ _ _ Hrest) as [[Hkeep _] _].
  apply IH in Hrest as (Hbefore2 & new2 & -> & Hnew2). split.
  { intros name Hname. by apply Hbefore1, Hbefore2. }
  exists (new1 ++ new2). split; [by rewrite app_assoc|].
  intros p [Hp|Hp]%elem_of_app.
  - destruct (Hnew1 p Hp) as (url & name & Hd & -> & [(c & mtime & Hfile)|Hdir]).
    + exists item, url, name. split_and!; [left|done..|]. left. eauto.
    + exists item, url, name. split_and!; [left|done..|]. by right.
  - destruct (Hnew2 p Hp) as (item' & url & name & Hin & Hd & -> & [Hfile|Hdir]).
    + exists item', url, name. split_and!; [by right|done..|]. by left.
    + exists item', url, name. split_and!; [by right|done..|]. right. by apply Hbefore1.
Qed.

Lemma get_service_photos w name :
  photo_node name (get_service R w).2 = photo_node name w.
Proof.
  unfold get_service, bind. pose proof (_load_credentials_world R w) as Hw.
  destruct (_load_credentials R w) as [[[creds|]|e] w0]; simpl in *; subst w0; try done.
  by destruct (build R w creds).
Qed.

Lemma ensure_download_dir_photos w name :
  photo_node name (ensure_download_dir w) = photo_node name w.
Proof.
  unfold ensure_download_dir, photo_node.
  destruct (fs w !! DOWNLOAD_DIR) eqn:E; simpl; rewrite ?E; [done|].
  by rewrite lookup_insert_eq.
Qed.

Lemma report_photos e w name : photo_node name (report e w) = photo_node name w.
Proof. unfold report. by destruct (is_HttpError e). Qed.

(** The paths of a fetch, one by one: each is the local path of a listed item
    and names a regular file, unless a directory of that name was in
    [photos/] at the call. *)
Lemma download_latest_photos_paths n w paths w' :
  download_latest_photos R n w = (Ok paths, w') →
  ∀ p, p ∈ paths →
    ∃ item url name,
      item ∈ listed_items R n w ∧ downloadable item = Some (url, name) ∧
      p = photo_path name ∧
      ((∃ c mtime, photo_node name w' = Some (File c mtime))
       ∨ photo_node name w = Some Folder).
Proof.
  unfold download_latest_photos, listed_items, bind.
  pose proof (λ name, get_service_photos w name) as Hsvc.
  destruct (get_service R w) as [[[svc|]|e] w0]; simpl in Hsvc; [| |done].
  2:{ intros [= <- <-] p H. by apply elem_of_nil in H. }
  destruct (mediaItems_list R (ensure_download_dir w0) svc n) as [e|response].
  { intros [= <- <-] p H. by apply elem_of_nil in H. }
  destruct (download_items R (default [] response) []
              (emit (ApiList n) (ensure_download_dir w0))) as [[paths1 oe] w3] eqn:E.
  apply download_items_paths in E as (_ & new & -> & Hnew). simpl.
  assert (∀ name, photo_node name (emit (ApiList n) (ensure_download_dir w0))
                  = photo_node name w) as Hstart.
  { intros name. rewrite <- Hsvc. apply ensure_download_dir_photos. }
  unfold return_paths. destruct oe as [e|]; intros [= <- <-] p Hp;
    destruct (Hnew p Hp) as (item & url & name & Hin & Hd & -> & Hnode);
    exists item, url, name; (split_and!; [done..|]);
    rewrite ?report_photos; by rewrite <- Hstart.
Qed.

End CachedPaths.

(** C1, as the code has it, for listings whose filenames are single path
    components.  When [download_latest_photos n] returns, it returns at most
    as many paths as the service listed items (so at most [n] whenever the
    service listed at most [n]); every returned path is [photos/<filename>]
    for a listed filename and names an entry of [photos/] that exists at
    return time, a regular file unless a directory of that name was there at
    the call; every child of [photos/] present at the call is unchanged at
    return and no request was made for its filename; and a turn of the loop
    that meets an item whose file is present appends the cached path and
    leaves the world alone.  The function raises only when loading the
    credential raises, and then it has changed nothing. *)
Theorem download_latest_photos_cached (R : Remote) (n : Z) (w : World) :
  Forall plain_item (listed_items R n w) →
  match download_latest_photos R n w with
  | (Raise e, w') => w' = w ∧ _load_credentials R w = (Raise e, w)
  | (Ok paths, w') =>
      length paths ≤ length (listed_items R n w) ∧
      ((Z.of_nat (length (listed_items R n w)) ≤ n)%Z → (Z.of_nat (length paths) ≤ n)%Z) ∧
      (∀ p, p ∈ paths →
         ∃ name, p = photo_path name ∧ plain_name name = true ∧
           ((∃ c mtime, photo_node name w' = Some (File c mtime))
            ∨ photo_node name w = Some Folder ∧ photo_node name w' = Some Folder)) ∧
      (∀ name node, photo_node name w = Some node →
         photo_node name w' = Some node ∧
         ∀ url, HttpGet url name ∉ drop (length (trace w)) (trace w'))
  end ∧
  (∀ item paths url name,
     downloadable item = Some (url, name) → plain_name name = true →
     is_Some (photo_node name w) →
     download_item R item paths w = (paths ++ [photo_path name], None, w)).
Proof.
  intros Hplain. split.
  - pose proof (download_latest_photos_spec R n w) as H.
    pose proof (download_latest_photos_paths R n w) as Hpaths.
    destruct (download_latest_photos R n w) as [[paths|e] w']; [|done].
    destruct H as ([Hkeep (evs & Htr & Hevs)] & Hlen & _).
    split_and!; [done|lia| |].
    + intros p Hp.
      destruct (Hpaths paths w' eq_refl p Hp) as (item & url & name & Hin & Hd & -> & Hnode).
      exists name. split; [done|]. split.
      * rewrite Forall_forall in Hplain. by eapply (Hplain item Hin).
      * destruct Hnode as [Hfile|Hdir]; [by left|]. right. split; [done|by apply Hkeep].
    + intros name node Hnode. split; [by apply Hkeep|].
      intros url Hin. rewrite Htr, drop_app_length in Hin.
      rewrite Forall_forall in Hevs. apply Hevs in Hin. simpl in Hin. congruence.
  - intros item paths url name Hd _ Hsome. unfold download_item, photo_exists.
    rewrite Hd. by rewrite bool_decide_eq_true_2.
Qed.

(** An instance: two photos with plain names, asked for and downloaded. *)
Lemma download_latest_photos_cached_witness :
  let R := Fake.remote [Fake.jpeg "a.jpg"; Fake.jpeg "b.jpg"] Fake.ok_200 in
  ∃ w',
    download_latest_photos R 2 Fake.authorized = (Ok ["photos/a.jpg"; "photos/b.jpg"], w') ∧
    ∀ p, p ∈ ["photos/a.jpg"; "photos/b.jpg"] →
      ∃ name, p = photo_path name ∧ plain_name name = true ∧
        ((∃ c mtime, photo_node name w' = Some (File c mtime))
         ∨ photo_node name Fake.authorized = Some Folder ∧ photo_node name w' = Some Folder).
Proof.
  cbv zeta.
  pose proof (download_latest_photos_cached
                (Fake.remote [Fake.jpeg "a.jpg"; Fake.jpeg "b.jpg"] Fake.ok_200)
                2 Fake.authorized) as H.
  destruct (download_latest_photos
              (Fake.remote [Fake.jpeg "a.jpg"; Fake.jpeg "b.jpg"] Fake.ok_200)
              2 Fake.authorized) as [[paths|e] w'] eqn:E.
  - assert (paths = ["photos/a.jpg"; "photos/b.jpg"]) as ->.
    { apply (f_equal fst) in E. vm_compute in E. congruence. }
    exists w'. split; [done|].
    destruct H as [(_ & _ & Hpaths & _) _]; [|exact Hpaths].
    repeat constructor; intros url name Hd; vm_compute in Hd;
      injection Hd as <- <-; reflexivity.
  - apply (f_equal fst) in E. vm_compute in E. discriminate.
Defined.

(** C1 fails as stated, twice.  Asked for [n = 0] photos, a service that
    answers a page size of zero with its default page makes the function
    return two paths; the code passes [n] on and never cuts the answer down to
    [n].  And where a directory in [photos/] has the name of a listed photo,
    the path that comes back as cached names that directory, not a file. *)
Lemma download_latest_photos_more_than_n :
  ((download_latest_photos (Fake.remote [Fake.jpeg "a.jpg"; Fake.jpeg "b.jpg"] Fake.ok_200)
      0 Fake.authorized).1
   = Ok ["photos/a.jpg"; "photos/b.jpg"]
   ∧ ¬ (Z.of_nat (length ["photos/a.jpg"; "photos/b.jpg"]) ≤ 0)%Z)
  ∧ ((download_latest_photos (Fake.remote [Fake.jpeg "a.jpg"] Fake.ok_200) 1 with_folder).1
     = Ok ["photos/a.jpg"]
     ∧ photo_node "a.jpg"
         (download_latest_photos (Fake.remote [Fake.jpeg "a.jpg"] Fake.ok_200) 1 with_folder).2
       = Some Folder).
Proof.
  split; [split; [vm_compute; reflexivity|simpl; lia]|].
  split; vm_compute; reflexivity.
Qed.

(** A second call with the same listing makes no request at all. *)
Example second_call_fetches_nothing :
  let R := Fake.remote [Fake.jpeg "a.jpg"; Fake.jpeg "b.jpg"] Fake.ok_200 in
  let w1 := (download_latest_photos R 2 Fake.authorized).2 in
  let second := download_latest_photos R 2 w1 in
  second.1 = Ok ["photos/a.jpg"; "photos/b.jpg"] ∧
  drop (length (trace w1)) (trace second.2) = [ApiList 2].
Proof. cbv zeta. split_and!; vm_compute; reflexivity. Qed.

Lemma download_items_app (R : Remote) pre : ∀ post paths w,
  download_items R (pre ++ post) paths w =
  match download_items R pre paths w with
  | (paths1, None, w1) => download_items R post paths1 w1
  | stopped => stopped
  end.
Proof.
  induction pre as [|item pre IH]; intros post paths w; simpl; [done|].
  destruct (download_item R item paths w) as [[paths1 [e|]] w1]; [done|apply IH].
Qed.

(** C2, as the code has it.  When the loop comes to an item that has to be
    downloaded, a status other than 200 skips that item alone and in silence:
    nothing is printed, the paths collected so far are kept and the remaining
    items are processed.  An exception of [requests.get] instead leaves the
    loop: it is reported once, the paths collected so far are returned and the
    remaining items are not processed. *)
Theorem failed_download_skips_or_stops (R : Remote) (n : Z) (w : World)
  (pre : list MediaItem) (item : MediaItem) (post : list MediaItem)
  (paths1 : list string) (w1 : World) (url name : string) :
  reaches R n w pre item post paths1 w1 →
  downloadable item = Some (url, name) →
  photo_node name w1 = None →
  (∀ r, requests_get R w1 url = inr r → status_code r ≠ 200%Z →
     download_latest_photos R n w
     = return_paths (download_items R post paths1 (emit (HttpGet url name) w1)))
  ∧ (∀ e, requests_get R w1 url = inl e →
     download_latest_photos R n w
     = (Ok paths1, report e (emit (HttpGet url name) w1))).
Proof.
  intros (svc & w0 & Hsvc & Hlist & Hpre) Hd Hnone.
  assert (photo_exists name w1 = false) as Hex.
  { unfold photo_exists. rewrite Hnone. apply bool_decide_eq_false_2. by intros [? ?]. }
  assert (download_latest_photos R n w
          = return_paths (match download_item R item paths1 w1 with
                            | (paths2, None, w2) => download_items R post paths2 w2
                            | stopped => stopped
                            end)) as Hrun.
  { unfold download_latest_photos, bind. rewrite Hsvc, Hlist. simpl.
    by rewrite download_items_app, Hpre. }
  split.
  - intros r Hget Hstatus. rewrite Hrun. unfold download_item.
    rewrite Hd, Hex, Hget. apply Z.eqb_neq in Hstatus. by rewrite Hstatus.
  - intros e Hget. rewrite Hrun. unfold download_item. by rewrite Hd, Hex, Hget.
Qed.

(** An instance: the second of three items meets a connection error; the
    first path is returned and the third item is never asked for. *)
Lemma failed_download_skips_or_stops_witness :
  let R := Fake.remote [Fake.jpeg "a.jpg"; Fake.jpeg "b.jpg"; Fake.jpeg "c.jpg"]
             (Fake.get_except "b.jpg" (inl (RequestException "connection reset"))) in
  let w1 := (download_items R [Fake.jpeg "a.jpg"] []
               (emit (ApiList 3) (ensure_download_dir Fake.authorized))).2 in
  download_latest_photos R 3 Fake.authorized
  = (Ok ["photos/a.jpg"],
     report (RequestException "connection reset")
       (emit (HttpGet "https://lh3.test/b.jpg=d" "b.jpg") w1)).
Proof.
  cbv zeta.
  apply (proj2 (failed_download_skips_or_stops
                  (Fake.remote [Fake.jpeg "a.jpg"; Fake.jpeg "b.jpg"; Fake.jpeg "c.jpg"]
                     (Fake.get_except "b.jpg" (inl (RequestException "connection reset"))))
                  3 Fake.authorized [Fake.jpeg "a.jpg"] (Fake.jpeg "b.jpg")
                  [Fake.jpeg "c.jpg"] ["photos/a.jpg"] _
                  "https://lh3.test/b.jpg=d" "b.jpg"
                  ltac:(exists {| valid := true; to_json := "{token}" |}, Fake.authorized;
                        split_and!; vm_compute; reflexivity)
                  ltac:(vm_compute; reflexivity)
                  ltac:(vm_compute; reflexivity))).
  vm_compute; reflexivity.
Defined.

(** C2 fails as stated, twice.  A connection error on the first of two items
    ends the batch: the second item is never requested, its file is not
    created and no path comes back.  And a 404 on the first item is skipped
    without a word: the trace holds the two requests and no message. *)
Lemma transport_error_aborts_batch :
  let items := [Fake.jpeg "a.jpg"; Fake.jpeg "b.jpg"] in
  let broken := download_latest_photos
                  (Fake.remote items
                     (Fake.get_except "a.jpg" (inl (RequestException "connection reset"))))
                  2 Fake.authorized in
  let missing := download_latest_photos
                   (Fake.remote items
                      (Fake.get_except "a.jpg" (inr {| status_code := 404; content := "" |})))
                   2 Fake.authorized in
  (broken.1 = Ok []
   ∧ photo_node "b.jpg" broken.2 = None
   ∧ trace broken.2 = [ApiList 2; HttpGet "https://lh3.test/a.jpg=d" "a.jpg";
                       Print "Error downloading photos: connection reset"])
  ∧ (missing.1 = Ok ["photos/b.jpg"]
     ∧ trace missing.2 = [ApiList 2; HttpGet "https://lh3.test/a.jpg=d" "a.jpg";
                          HttpGet "https://lh3.test/b.jpg=d" "b.jpg"]).
Proof. cbv zeta. split_and!; vm_compute; reflexivity. Qed.

(** ** Claims about the Credential Store *)

Section LoadCredentials.
Context (R : Remote).

Lemma _load_credentials_absent w :
  fs w !! "token.json" = None → _load_credentials R w = (Ok None, w).
Proof. intros H. unfold _load_credentials. by rewrite H. Qed.

Lemma _load_credentials_parsed w text mtime creds :
  fs w !! "token.json" = Some (RFile (Bytes text) mtime) →
  from_authorized_user_file R w text = inr creds →
  _load_credentials R w = (Ok (if valid creds then Some creds else None), w).
Proof.
  intros H Hp. unfold _load_credentials. rewrite H, Hp. by destruct (valid creds).
Qed.

(** No handler stands between the parser and the caller. *)
Lemma _load_credentials_unparseable w text mtime e :
  fs w !! "token.json" = Some (RFile (Bytes text) mtime) →
  from_authorized_user_file R w text = inl e →
  _load_credentials R w = (Raise e, w).
Proof. intros H Hp. unfold _load_credentials. by rewrite H, Hp. Qed.

(** The exception goes all the way up: [get_service],
    [download_latest_photos] and [get_next_photo] call the loader outside
    any [try]. *)
Lemma unparseable_record_reaches_the_loop w text mtime e :
  fs w !! "token.json" = Some (RFile (Bytes text) mtime) →
  from_authorized_user_file R w text = inl e →
  get_next_photo R w = (Raise e, w).
Proof.
  intros H Hp. unfold get_next_photo, download_latest_photos, get_service, bind.
  by rewrite (_load_credentials_unparseable _ _ _ _ H Hp).
Qed.

End LoadCredentials.

(** C4 at the failing input: the record file exists and does not parse (here
    it is empty), and [_load_credentials] raises instead of returning [None]. *)
Theorem load_credentials_raises_on_unparseable :
  _load_credentials (Fake.remote [] Fake.ok_200) mid_save
  = (Raise (ValueError "Expecting value: line 1 column 1 (char 0)"), mid_save).
Proof.
  apply (_load_credentials_unparseable _ _ "" 100); [|reflexivity].
  vm_compute; reflexivity.
Qed.

(** ** Claims about [get_next_photo] *)

Lemma later_cases best x : later best x = best ∨ later best x = x.
Proof. unfold later. destruct (best.2 <? x.2)%Z; auto. Qed.

Lemma later_ge best x : (best.2 ≤ (later best x).2)%Z ∧ (x.2 ≤ (later best x).2)%Z.
Proof. unfold later. destruct (Z.ltb_spec best.2 x.2); simpl; lia. Qed.

(** [max] answers with one of the candidates, and none is younger. *)
Lemma max_by_mtime_spec others : ∀ first,
  max_by_mtime first others ∈ first :: others ∧
  ∀ x, x ∈ first :: others → (x.2 ≤ (max_by_mtime first others).2)%Z.
Proof.
  unfold max_by_mtime.
  induction others as [|y others IH]; intros first; simpl.
  { split; [left|]. intros x ->%list_elem_of_singleton. lia. }
  destruct (IH (later first y)) as [Hin Hmax]. split.
  - apply elem_of_cons in Hin as [->|Hin].
    + destruct (later_cases first y) as [->| ->]; [left|right; left].
    + by do 2 right.
  - intros x Hx. pose proof (later_ge first y) as [Hf Hy].
    assert ((later first y).2 ≤ (foldl later (later first y) others).2)%Z as Hl.
    { apply Hmax. left. }
    apply elem_of_cons in Hx as [->|Hx]; [lia|].
    apply elem_of_cons in Hx as [->|Hx]; [lia|].
    apply Hmax. by right.
Qed.

(** The candidates are the regular files of [photos/] with an image suffix,
    each with its modification time. *)
Lemma elem_of_image_files (children : gmap string Node) name mtime :
  (name, mtime) ∈ omap image_file (map_to_list children) ↔
  ∃ c, children !! name = Some (File c mtime) ∧ suffix_is_image name = true.
Proof.
  rewrite list_elem_of_omap. split.
  - intros ([name' node] & Hin%elem_of_map_to_list & Himg).
    unfold image_file in Himg. destruct node as [c m|]; [|done].
    destruct (suffix_is_image name') eqn:E; [|done].
    injection Himg as -> ->. eauto.
  - intros (c & Hl & Himg). exists (name, File c mtime).
    split; [by apply elem_of_map_to_list|]. unfold image_file. by rewrite Himg.
Qed.

(** What [get_next_photo] answers, case by case: it fetches with [n = 1]
    first; then, when [photos/] is a directory, it returns the path of an
    image file of the greatest modification time, or [None] when the directory
    holds no image file; when [photos/] does not exist it raises. *)
Lemma get_next_photo_spec (R : Remote) (w : World) :
  match download_latest_photos R 1 w with
  | (Raise e, w1) => get_next_photo R w = (Raise e, w1)
  | (Ok _, w1) =>
      match fs w1 !! DOWNLOAD_DIR with
      | Some (RDir children) =>
          ∃ answer, get_next_photo R w = (Ok answer, w1) ∧
            match answer with
            | None =>
                ∀ name c mtime,
                  children !! name = Some (File c mtime) → suffix_is_image name = false
            | Some path =>
                ∃ name c mtime,
                  path = photo_path name ∧ children !! name = Some (File c mtime) ∧
                  suffix_is_image name = true ∧
                  ∀ name' c' mtime',
                    children !! name' = Some (File c' mtime') →
                    suffix_is_image name' = true → (mtime' ≤ mtime)%Z
            end
      | Some (RFile _ _) => get_next_photo R w = (Raise (NotADirectoryError DOWNLOAD_DIR), w1)
      | None => get_next_photo R w = (Raise (FileNotFoundError DOWNLOAD_DIR), w1)
      end
  end.
Proof.
  unfold get_next_photo, bind.
  destruct (download_latest_photos R 1 w) as [[paths|e] w1]; [|done].
  destruct (fs w1 !! DOWNLOAD_DIR) as [[c m|children]|]; [done| |done].
  destruct (omap image_file (map_to_list children)) as [|f others] eqn:E.
  - exists None. split; [done|]. intros name c mtime Hl.
    destruct (suffix_is_image name) eqn:Himg; [|done].
    assert ((name, mtime) ∈ omap image_file (map_to_list children)) as Hin.
    { apply elem_of_image_files. eauto. }
    rewrite E in Hin. by apply elem_of_nil in Hin.
  - exists (Some (photo_path (max_by_mtime f others).1)). split; [done|].
    destruct (max_by_mtime_spec others f) as [Hin Hmax].
    destruct (max_by_mtime f others) as [name mtime] eqn:Ebest.
    rewrite <- E in Hin. apply elem_of_image_files in Hin as (c & Hl & Himg).
    exists name, c, mtime. split_and!; [done..|].
    intros name' c' mtime' Hl' Himg'.
    apply (Hmax (name', mtime')). rewrite <- E. apply elem_of_image_files. eauto.
Qed.

(** The answer can be a file other than the one just fetched: the listing
    names [a.jpg], which is downloaded now, and [old.png], with a later
    modification time, is what comes back. *)
Example get_next_photo_not_the_fetched :
  let w := set_fs (<[DOWNLOAD_DIR := RDir {[ "old.png" := File (Bytes "old") 500 ]}]>
                     (fs Fake.authorized)) Fake.authorized in
  let R := Fake.remote [Fake.jpeg "a.jpg"] Fake.ok_200 in
  (download_latest_photos R 1 w).1 = Ok ["photos/a.jpg"] ∧
  (get_next_photo R w).1 = Ok (Some "photos/old.png").
Proof. cbv zeta. split; vm_compute; reflexivity. Qed.

(** C9 at the failing input: a record that is no longer valid and no
    [photos/] directory.  The fetch returns without creating the directory,
    and listing it raises where the claim has [get_next_photo] return
    nothing. *)
Theorem get_next_photo_raises_without_directory :
  (download_latest_photos (Fake.remote [] Fake.ok_200) 1 Fake.stale).1 = Ok []
  ∧ get_next_photo (Fake.remote [] Fake.ok_200) Fake.stale
    = (Raise (FileNotFoundError "photos"), Fake.stale).
Proof. split; vm_compute; reflexivity. Qed.

(** Nothing catches it: the polling loop ends on its first turn. *)
Example loop_ends_without_directory :
  (display_photos_loop (Fake.remote [] Fake.ok_200) None 3600 2 Fake.stale).1
  = Crashed (FileNotFoundError "photos").
Proof. vm_compute; reflexivity. Qed.

(** ** Claims about the configuration web service *)

(** C3, as the code has it.  The save is made of two steps on the record file
    itself: [open] leaves it in place and empty, and the end of the [with]
    block leaves it holding the whole serialised credential; no other entry of
    the working directory changes.  A reader that runs between the two steps
    sees the empty file.  When the handler's save returns, the record file
    holds exactly the serialised credential, whatever it held before; the save
    raises only when [token.json] is a directory, and then nothing changed. *)
Theorem save_token_in_place (json : string) (w : World) :
  (∃ opened closed,
     save_token_states json w = [opened; closed] ∧
     record_text opened = Some "" ∧ record_text closed = Some json ∧
     ∀ path, path ≠ "token.json" →
       fs opened !! path = fs w !! path ∧ fs closed !! path = fs w !! path)
  ∧ match save_token json w with
    | (Ok _, w') => last (save_token_states json w) = Some w' ∧ record_text w' = Some json
    | (Raise e, w') => w' = w ∧ ∃ children, fs w !! "token.json" = Some (RDir children)
    end.
Proof.
  split.
  - eexists _, _. split; [reflexivity|].
    unfold record_text, write_root, open_truncate; simpl.
    rewrite !lookup_insert_eq. split_and!; [done..|].
    intros path Hne. by rewrite !lookup_insert_ne.
  - unfold save_token.
    assert (record_text (write_root "token.json" (Bytes json)
                           (open_truncate "token.json" w)) = Some json) as Hfinal.
    { unfold record_text, write_root; simpl. by rewrite lookup_insert_eq. }
    destruct (fs w !! "token.json") as [[c m|children]|]; eauto.
Qed.

(** C3 fails as stated: while the handler saves a new credential over the old
    record, there is a state of the working directory in which the record file
    holds neither the old record nor the new one, but an empty text, which the
    loader cannot parse. *)
Lemma save_token_not_atomic :
  ∃ seen,
    seen ∈ save_token_states "{new}" Fake.authorized ∧
    record_text Fake.authorized = Some "{token}" ∧
    record_text seen = Some "" ∧
    (_load_credentials (Fake.remote [] Fake.ok_200) seen).1
    = Raise (ValueError "Expecting value: line 1 column 1 (char 0)").
Proof.
  exists (open_truncate "token.json" Fake.authorized).
  split; [left|]. split_and!; vm_compute; reflexivity.
Qed.

Section Callback.
Context (R : Remote) (host_ip : string).

(** C5.  A callback request that arrives when the session holds no state
    nonce is answered with status 400, and the handler touches neither the
    working directory (the record file is as it was, present or absent) nor
    anything else of the world, nor the session. *)
Theorem oauth2callback_without_nonce (request_url : string)
  (session : gmap string string) (w : World) :
  session !! "state" = None →
  ∃ response,
    oauth2callback R host_ip request_url session w = (Ok response, session, w) ∧
    status response = 400%Z.
Proof.
  intros Hstate. unfold oauth2callback. rewrite Hstate. simpl. eauto.
Qed.

(** C6, as the code has it.  The callback handler reads the nonce and never
    removes it: whatever the outcome of a callback request, the session
    after it is the session before it.  The begin-authorisation step is the
    only writer of the nonce. *)
Theorem oauth2callback_keeps_session (request_url : string)
  (session : gmap string string) (w : World) :
  (oauth2callback R host_ip request_url session w).1.2 = session
  ∧ match google_auth R host_ip session w with
    | (Ok response, session', _) =>
        status response = 500%Z ∧ session' = session
        ∨ status response = 302%Z
          ∧ session' = <["state" := (authorization_url R w (redirect_uri host_ip)).2]> session
    | (Raise _, session', _) => session' = session
    end.
Proof.
  split.
  - unfold oauth2callback. destruct (negb (truthy (session !! "state"))); [done|].
    match goal with |- context [bind ?m ?k w] => destruct (bind m k w) as [[?|?] ?] end;
      done.
  - unfold google_auth.
    destruct (fs w !! "client_secret.json") as [entry|] eqn:E; [|by left].
    unfold load_flow. rewrite E.
    destruct entry as [[text|img] m|children]; try done.
    destruct (flow_from_client_secrets R text); [done|]. simpl.
    destruct (authorization_url R w (redirect_uri host_ip)) as [url state]. by right.
Qed.

End Callback.

Lemma oauth2callback_without_nonce_witness :
  ∃ response,
    oauth2callback (Fake.remote [] Fake.ok_200) "10.0.0.2"
      "http://10.0.0.2:5000/oauth2callback?code=c" ∅ Fake.fresh
    = (Ok response, ∅, Fake.fresh) ∧
    status response = 400%Z.
Proof.
  apply (oauth2callback_without_nonce (Fake.remote [] Fake.ok_200) "10.0.0.2"
           "http://10.0.0.2:5000/oauth2callback?code=c" ∅ Fake.fresh).
  reflexivity.
Defined.

(** C6 fails as stated: after the begin-authorisation step and a callback
    that completes (redirect to the status page), the session still holds the
    nonce, and a second callback in the same session is not turned away with
    status 400 but runs the token exchange again. *)
Lemma nonce_survives_callback :
  let R := Fake.remote [] Fake.ok_200 in
  let url := "http://10.0.0.2:5000/oauth2callback?state=nonce-1&code=c" in
  let begun := google_auth R "10.0.0.2" ∅ Fake.fresh in
  let first := oauth2callback R "10.0.0.2" url begun.1.2 begun.2 in
  let second := oauth2callback R "10.0.0.2" url first.1.2 first.2 in
  begun.1.2 !! "state" = Some "nonce-1" ∧
  first.1.1 = Ok (redirect "/") ∧
  first.1.2 !! "state" = Some "nonce-1" ∧
  second.1.1 = Ok (redirect "/").
Proof. cbv zeta. split_and!; vm_compute; reflexivity. Qed.

(** ** Claims about the display adapter *)

Section DisplayImage.
Context (R : Remote).

(** Without a panel the image goes to [latest_display.png] as it came. *)
Lemma display_image_headless image w :
  display_image R None image w
  = match fs w !! "latest_display.png" with
    | Some (RDir _) => (Raise (IsADirectoryError "latest_display.png"), w)
    | _ => (Ok tt, write_root "latest_display.png" (Png image) w)
    end.
Proof.
  unfold display_image, image_save.
  by destruct (fs w !! "latest_display.png") as [[]|].
Qed.

(** A second call replaces the content of the same entry and adds none. *)
Lemma display_image_headless_overwrites image1 image2 w w1 w2 :
  display_image R None image1 w = (Ok tt, w1) →
  display_image R None image2 w1 = (Ok tt, w2) →
  dom (fs w2) = dom (fs w1) ∧
  fs w2 !! "latest_display.png" = Some (RFile (Png image2) (clock w1)) ∧
  ∀ path, path ≠ "latest_display.png" → fs w2 !! path = fs w1 !! path.
Proof.
  rewrite !display_image_headless. intros H1 H2.
  assert (w1 = write_root "latest_display.png" (Png image1) w) as ->.
  { destruct (fs w !! "latest_display.png") as [[]|]; congruence. }
  assert (w2 = write_root "latest_display.png" (Png image2)
                 (write_root "latest_display.png" (Png image1) w)) as ->.
  { simpl in H2. rewrite lookup_insert_eq in H2. congruence. }
  simpl. split_and!.
  - rewrite !dom_insert_L. by rewrite union_assoc_L, union_idemp_L.
  - by rewrite lookup_insert_eq.
  - intros path Hne. by rewrite lookup_insert_ne.
Qed.

(** With a panel the image is fitted to the panel's resolution first. *)
Lemma display_image_panel resolution image w :
  ∃ w', display_image R (Some resolution) image w = (Ok tt, w') ∧
        fs w' = fs w ∧
        panel w' = Some (ImageOps_fit R image resolution) ∧
        im_size (ImageOps_fit R image resolution) = resolution.
Proof. destruct resolution as [width height]. eexists. by split_and!. Qed.

End DisplayImage.

(** C7 at the failing input: no panel, an image that is not of the panel's
    size.  The file holds the image as it was passed in, 3000 by 4000, where
    the claim has the picture fitted to 600 by 448 as [ImageOps.fit] would
    make it. *)
Theorem display_image_headless_saves_unfitted :
  let R := Fake.remote [] Fake.ok_200 in
  let out := display_image R None portrait Fake.authorized in
  out.1 = Ok tt ∧
  fs out.2 !! "latest_display.png" = Some (RFile (Png portrait) 100) ∧
  im_size portrait = (3000, 4000)%Z ∧
  im_size (ImageOps_fit R portrait (WIDTH None, HEIGHT None)) = (600, 448)%Z.
Proof. cbv zeta. split_and!; vm_compute; reflexivity. Qed.

(** ** Claims about the polling loop *)

Lemma count_calls_app evs1 evs2 :
  count_calls (evs1 ++ evs2) = count_calls evs1 + count_calls evs2.
Proof.
  induction evs1 as [|ev evs1 IH]; simpl; [done|].
  destruct ev; simpl; rewrite ?IH; done.
Qed.

Lemma no_call_refl w : no_call w w.
Proof. exists []. by rewrite app_nil_r. Qed.

Lemma no_call_trans w1 w2 w3 : no_call w1 w2 → no_call w2 w3 → no_call w1 w3.
Proof.
  intros (evs1 & H1 & Hc1) (evs2 & H2 & Hc2). exists (evs1 ++ evs2).
  split; [by rewrite H2, H1, app_assoc|]. rewrite count_calls_app. lia.
Qed.

Lemma no_call_emit ev w : ev ≠ CallFetcher → no_call w (emit ev w).
Proof. intros Hev. exists [ev]. split; [done|]. by destruct ev. Qed.

Lemma grows_no_call w w' : grows w w' → no_call w w'.
Proof.
  intros [_ (evs & Htr & Hevs)]. exists evs. split; [done|].
  clear Htr. induction Hevs as [|ev evs Hev _ IH]; [done|].
  by destruct ev.
Qed.

Section Loop.
Context (R : Remote) (INKY_DISPLAY : option (Z * Z)).

Lemma get_next_photo_no_call w :
  no_call w (get_next_photo R w).2.
Proof.
  unfold get_next_photo, bind.
  pose proof (download_latest_photos_spec R 1 w) as H.
  destruct (download_latest_photos R 1 w) as [[paths|e] w1].
  - destruct H as [Hg _]. apply grows_no_call in Hg.
    destruct (fs w1 !! DOWNLOAD_DIR) as [[c m|children]|]; simpl; try done.
    by destruct (omap image_file (map_to_list children)).
  - destruct H as [-> _]. apply no_call_refl.
Qed.

Lemma show_photo_no_call path w : no_call w (show_photo R INKY_DISPLAY path w).
Proof.
  unfold show_photo, bind, Image_open.
  assert (∀ img, no_call w
            match display_image R INKY_DISPLAY (convert R img "RGB") w with
            | (Ok _, w') => w'
            | (Raise exc, w') =>
                print ("Failed to display " +:+ path +:+ ": " +:+ exn_str exc) w'
            end) as Hshow.
  { intros img. unfold display_image, image_save. destruct INKY_DISPLAY.
    - by eexists [PanelShow _].
    - destruct (fs w !! "latest_display.png") as [[]|];
        by (exists [] + apply (no_call_emit (Print _))); rewrite ?app_nil_r. }
  destruct (stat path w) as [[[b|img] m|]|]; try by apply (no_call_emit (Print _)).
  - destruct (image_open R b); [by apply (no_call_emit (Print _))|apply Hshow].
  - apply Hshow.
Qed.

(** A turn of the main loop begins by calling the fetcher, and calls it
    once. *)
Lemma iteration_calls_once interval w :
  ∃ evs, trace (iteration R INKY_DISPLAY interval w).2 = trace w ++ CallFetcher :: evs ∧
         count_calls evs = 0.
Proof.
  unfold iteration, bind.
  pose proof (get_next_photo_no_call (emit CallFetcher w)) as Hnext.
  destruct (get_next_photo R (emit CallFetcher w)) as [[photo|e] w1]; simpl in Hnext.
  2:{ destruct Hnext as (evs & Htr & Hc). exists evs. split; [|done].
      simpl in *. by rewrite Htr, <- app_assoc. }
  assert (∃ w2, no_call w1 w2 ∧
            match photo with
            | Some path =>
                if truthy photo && bool_decide (is_Some (stat path w1))
                then (Ok tt, show_photo R INKY_DISPLAY path w1)
                else (Ok tt, print "No photos downloaded yet." w1)
            | None => (Ok tt, print "No photos downloaded yet." w1)
            end = (Ok tt, w2)) as (w2 & H12 & ->).
  { destruct photo as [path|].
    - destruct (truthy (Some path) && bool_decide (is_Some (stat path w1)));
        eexists; (split; [|reflexivity]);
        [apply show_photo_no_call|by apply (no_call_emit (Print _))].
    - eexists; split; [|reflexivity]. by apply (no_call_emit (Print _)). }
  assert (no_call w1 (time_sleep R interval w2).2) as (evs & Htr & Hc).
  { eapply no_call_trans; [exact H12|]. unfold time_sleep.
    destruct (interval <? 0)%Z; [apply no_call_refl|].
    by exists [Sleep interval]. }
  destruct Hnext as (evs1 & Htr1 & Hc1). exists (evs1 ++ evs).
  split; [|rewrite count_calls_app; lia].
  rewrite Htr, Htr1. simpl. by rewrite <- !app_assoc.
Qed.

Lemma loop_step_main interval w :
  let st := loop_step R INKY_DISPLAY interval (MainLoop, w) in
  st.1 ≠ WaitForToken ∧ fetcher_calls st.2 = S (fetcher_calls w) ∧
  ∃ evs, trace st.2 = trace w ++ CallFetcher :: evs.
Proof.
  simpl. destruct (iteration_calls_once interval w) as (evs & Htr & Hc).
  unfold fetcher_calls.
  destruct (iteration R INKY_DISPLAY interval w) as [[[]|e] w1]; simpl in *;
    (split_and!; [done| |eauto]);
    rewrite Htr, count_calls_app; simpl; lia.
Qed.

End Loop.

Section PollingLoop.
Context (R : Remote) (INKY_DISPLAY : option (Z * Z)) (interval_seconds : Z).

(** C8.  As long as every check so far found no record file, the loop has
    done nothing but sleep five seconds per check: after [k] checks it is
    still waiting, for every [k], the trace holds [k] sleeps and no call of
    the fetcher, and [5 * k] seconds have passed.  When the next check
    finds the record, wherever it came from during the last sleep, the loop
    enters the main loop without another sleep, and the first thing it does
    there is to call the fetcher. *)
Theorem display_photos_loop_waits (k : nat) (w : World) :
  (∀ j, j < k → fs (Nat.iter j (asleep R 5) w) !! "token.json" = None) →
  let wk := Nat.iter k (asleep R 5) w in
  display_photos_loop R INKY_DISPLAY interval_seconds k w = (WaitForToken, wk)
  ∧ trace wk = trace w ++ replicate k (Sleep 5)
  ∧ fetcher_calls wk = fetcher_calls w
  ∧ clock wk = (clock w + 5 * Z.of_nat k)%Z
  ∧ (is_Some (fs wk !! "token.json") →
       display_photos_loop R INKY_DISPLAY interval_seconds (S k) w = (MainLoop, wk)
       ∧ ∃ evs,
           trace (display_photos_loop R INKY_DISPLAY interval_seconds (S (S k)) w).2
           = trace wk ++ CallFetcher :: evs).
Proof.
  intros Habsent. cbv zeta.
  assert (display_photos_loop R INKY_DISPLAY interval_seconds k w
          = (WaitForToken, Nat.iter k (asleep R 5) w)
          ∧ trace (Nat.iter k (asleep R 5) w) = trace w ++ replicate k (Sleep 5)
          ∧ clock (Nat.iter k (asleep R 5) w) = (clock w + 5 * Z.of_nat k)%Z)
    as (Hloop & Htr & Hclock).
  { induction k as [|k IH].
    - split_and!; [done|by rewrite app_nil_r|simpl; lia].
    - destruct IH as (Hloop & Htr & Hclock); [intros j Hj; apply Habsent; lia|].
      assert (k < S k) as Hk by lia.
      unfold display_photos_loop in *. rewrite !Nat.iter_succ, Hloop.
      unfold loop_step. rewrite (Habsent k Hk).
      rewrite bool_decide_eq_false_2 by (by intros [? ?]).
      split_and!; [done| |].
      + change (trace (asleep R 5 (Nat.iter k (asleep R 5) w)))
          with (trace (Nat.iter k (asleep R 5) w) ++ [Sleep 5]).
        rewrite Htr, <- app_assoc. f_equal.
        change [Sleep 5] with (replicate 1 (Sleep 5)).
        rewrite <- replicate_add. f_equal. lia.
      + change (clock (asleep R 5 (Nat.iter k (asleep R 5) w)))
          with (clock (Nat.iter k (asleep R 5) w) + 5)%Z.
        lia. }
  split_and!; [done..| | done|].
  - unfold fetcher_calls. rewrite Htr, count_calls_app.
    assert (count_calls (replicate k (Sleep 5)) = 0) as ->; [|lia].
    clear. by induction k.
  - intros Hsome.
    assert (display_photos_loop R INKY_DISPLAY interval_seconds (S k) w
            = (MainLoop, Nat.iter k (asleep R 5) w)) as Hentered.
    { unfold display_photos_loop in *. rewrite Nat.iter_succ, Hloop. simpl.
      by rewrite bool_decide_eq_true_2. }
    split; [done|].
    unfold display_photos_loop in *. rewrite Nat.iter_succ, Hentered.
    apply loop_step_main.
Qed.

(** C10.  Once the loop is in its main loop it never goes back to waiting
    for the record: whatever happens to the files, each further turn calls
    the fetcher exactly once, until an exception ends the loop. *)
Theorem main_loop_never_rechecks (k0 k : nat) (w : World) :
  (display_photos_loop R INKY_DISPLAY interval_seconds k0 w).1 = MainLoop →
  let entered := display_photos_loop R INKY_DISPLAY interval_seconds k0 w in
  let st := display_photos_loop R INKY_DISPLAY interval_seconds (k + k0) w in
  st.1 ≠ WaitForToken ∧
  (st.1 = MainLoop → fetcher_calls st.2 = fetcher_calls entered.2 + k).
Proof.
  intros Hentered. cbv zeta. unfold display_photos_loop in *.
  rewrite Nat.iter_add.
  destruct (Nat.iter k0 _ _) as [phase w0]. simpl in Hentered. subst phase.
  induction k as [|k IH]; [by split; [|simpl; lia]|].
  rewrite Nat.iter_succ.
  destruct (Nat.iter k _ _) as [phase wk]. destruct IH as [Hne Hcalls].
  destruct phase as [| |e]; [done| |by simpl].
  destruct (loop_step_main R INKY_DISPLAY interval_seconds wk) as (H1 & H2 & _).
  split; [done|]. intros _. specialize (Hcalls eq_refl). simpl in Hcalls.
  rewrite H2, Hcalls. simpl. lia.
Qed.

End PollingLoop.

(** An instance of the wait: the user authorises during the second sleep.
    Two checks find nothing, the third finds the record, and the loop goes
    straight on to call the fetcher. *)
Lemma display_photos_loop_waits_witness :
  let R := Fake.with_meanwhile (Fake.authorise_at 110)
             (Fake.remote [Fake.jpeg "a.jpg"] Fake.ok_200) in
  let w2 := Nat.iter 2 (asleep R 5) Fake.fresh in
  display_photos_loop R None 3600 2 Fake.fresh = (WaitForToken, w2)
  ∧ fetcher_calls w2 = 0
  ∧ clock w2 = 110%Z
  ∧ display_photos_loop R None 3600 3 Fake.fresh = (MainLoop, w2)
  ∧ ∃ evs, trace (display_photos_loop R None 3600 4 Fake.fresh).2
           = trace w2 ++ CallFetcher :: evs.
Proof.
  cbv zeta.
  destruct (display_photos_loop_waits
              (Fake.with_meanwhile (Fake.authorise_at 110)
                 (Fake.remote [Fake.jpeg "a.jpg"] Fake.ok_200))
              None 3600 2 Fake.fresh) as (Hloop & _ & Hcalls & Hclock & Hthen).
  { intros j Hj. destruct j as [|[|j]]; [vm_compute; reflexivity..|lia]. }
  destruct Hthen as [Hentered Hcall].
  { vm_compute. eexists. reflexivity. }
  split_and!; [exact Hloop|exact Hcalls|exact Hclock|exact Hentered|exact Hcall].
Defined.

(** An instance in which the record is deleted during every sleep: the loop
    is in its main loop after one step, and two further steps call the fetcher
    twice. *)
Lemma main_loop_never_rechecks_witness :
  let R := Fake.with_meanwhile Fake.revoke (Fake.remote [] Fake.ok_200) in
  let entered := display_photos_loop R None 3600 1 Fake.cached in
  let st := display_photos_loop R None 3600 (2 + 1) Fake.cached in
  st.1 ≠ WaitForToken ∧
  (st.1 = MainLoop → fetcher_calls st.2 = fetcher_calls entered.2 + 2).
Proof.
  apply (main_loop_never_rechecks
           (Fake.with_meanwhile Fake.revoke (Fake.remote [] Fake.ok_200))
           None 3600 1 2 Fake.cached).
  vm_compute; reflexivity.
Defined.

(** The same run, looked at: the record is gone after the first turn, the
    second turn still calls the fetcher and shows the photo that was already
    on disk. *)
Example loop_polls_without_record :
  let R := Fake.with_meanwhile Fake.revoke (Fake.remote [] Fake.ok_200) in
  let after_first := display_photos_loop R None 3600 2 Fake.cached in
  let after_second := display_photos_loop R None 3600 3 Fake.cached in
  fs after_first.2 !! "token.json" = None ∧
  after_second.1 = MainLoop ∧
  drop (length (trace after_first.2)) (trace after_second.2) = [CallFetcher; Sleep 3600] ∧
  fs after_second.2 !! "latest_display.png"
  = Some (RFile (Png (convert R Fake.pixel "RGB")) 3700).
Proof. cbv zeta. split_and!; vm_compute; reflexivity. Qed.

(** ** The address of the machine (main.py) *)

Lemma has_space_snoc word c :
  has_space (word +:+ String c EmptyString) = has_space word || is_space c.
Proof.
  induction word as [|a word IH]; simpl; [by rewrite orb_false_r|].
  rewrite IH. by rewrite orb_assoc.
Qed.

Lemma snoc_not_empty word c : word +:+ String c EmptyString ≠ EmptyString.
Proof. by destruct word. Qed.

(** The words that [split] cuts are not empty and hold no whitespace. *)
Lemma split_from_words s : ∀ word,
  has_space word = false →
  Forall (λ t, t ≠ EmptyString ∧ has_space t = false) (split_from word s).
Proof.
  induction s as [|c s IH]; intros word Hword; simpl.
  - destruct word; [constructor|]. by repeat constructor.
  - destruct (is_space c) eqn:Ec.
    + destruct word; [by apply IH|]. constructor; [done|by apply IH].
    + apply IH. by rewrite has_space_snoc, Hword, Ec.
Qed.

Lemma first_non_loopback_spec ips :
  (Forall (λ ip, loopback ip = true) ips ∧ first_non_loopback ips = "127.0.0.1")
  ∨ ∃ pre post,
      ips = pre ++ first_non_loopback ips :: post ∧
      Forall (λ ip, loopback ip = true) pre ∧
      loopback (first_non_loopback ips) = false.
Proof.
  induction ips as [|ip rest IH]; simpl; [by left|].
  destruct (loopback ip) eqn:E; simpl.
  - destruct IH as [[Hall ->]|(pre & post & Heq & Hpre & Hr)].
    + left. by split; [constructor|].
    + right. exists (ip :: pre), post. split_and!; [|by constructor|done].
      simpl. by rewrite <- Heq.
  - right. by exists [], rest.
Qed.

(** [get_ip_address] answers with the first word of the output of
    [hostname -I] that does not start with [127.], whatever kind of address
    it is, and with [127.0.0.1] when every word starts with [127.] or there is
    no word at all. *)
Theorem get_ip_address_first_non_loopback (hostname_output : string) :
  let ips := split (strip hostname_output) in
  let ip := get_ip_address hostname_output in
  (Forall (λ ip, loopback ip = true) ips ∧ ip = "127.0.0.1")
  ∨ ∃ pre post,
      ips = pre ++ ip :: post ∧ Forall (λ ip, loopback ip = true) pre ∧ loopback ip = false.
Proof. apply first_non_loopback_spec. Qed.

(** The answer of [get_ip_address] is never empty and holds no whitespace,
    so the configuration URL built from it is one word. *)
Theorem get_ip_address_is_a_word (hostname_output : string) :
  get_ip_address hostname_output ≠ EmptyString ∧
  has_space (get_ip_address hostname_output) = false.
Proof.
  unfold get_ip_address.
  pose proof (split_from_words (strip hostname_output) EmptyString eq_refl) as Hwords.
  fold (split (strip hostname_output)) in Hwords.
  destruct (first_non_loopback_spec (split (strip hostname_output)))
    as [[_ ->]|(pre & post & Heq & _ & _)]; [done|].
  rewrite Heq in Hwords. apply Forall_app in Hwords as [_ Hwords].
  by apply Forall_cons in Hwords as [Hip _].
Qed.

(** The docstring speaks of IPv4 addresses; the code takes any first word. *)
Example get_ip_address_examples :
  get_ip_address "127.0.0.1 192.168.1.5 " = "192.168.1.5" ∧
  get_ip_address "127.0.0.1" = "127.0.0.1" ∧
  get_ip_address "" = "127.0.0.1" ∧
  get_ip_address "fe80::1 192.168.1.5" = "fe80::1".
Proof. split_and!; reflexivity. Qed.

(** ** The QR code (display.py) *)

(** The QR code is pasted in the middle of the canvas: on both axes the box
    starts at least ten pixels in and ends at least ten pixels before the far
    edge, whatever the resolution, and the two margins of an axis differ by at
    most one pixel.  The side of the code is positive as soon as both
    dimensions of the panel exceed twenty pixels. *)
Theorem qr_box_centred (width height : Z) :
  let size := qr_size width height in
  let '(x, y) := qr_box width height in
  (10 ≤ x ∧ x + size ≤ width - 10 ∧ 0 ≤ (width - size - x) - x ≤ 1)%Z ∧
  (10 ≤ y ∧ y + size ≤ height - 10 ∧ 0 ≤ (height - size - y) - y ≤ 1)%Z ∧
  ((20 < width ∧ 20 < height)%Z → (0 < size)%Z) ∧
  (size = width - 20 ∨ size = height - 20)%Z.
Proof.
  unfold qr_box, qr_size. cbv zeta.
  pose proof (Z.div_mod (width - (Z.min width height - 20)) 2 ltac:(lia)) as Hx.
  pose proof (Z.mod_pos_bound (width - (Z.min width height - 20)) 2 ltac:(lia)) as Hxm.
  pose proof (Z.div_mod (height - (Z.min width height - 20)) 2 ltac:(lia)) as Hy.
  pose proof (Z.mod_pos_bound (height - (Z.min width height - 20)) 2 ltac:(lia)) as Hym.
  lia.
Qed.

Section ShowQrCodeFacts.
Context (Q : QrLib).

(** When [show_qr_code] returns, it has drawn a canvas of exactly the panel's
    resolution: without a panel the canvas is in [qr.png] and no other entry
    of the working directory changed; with a panel the panel shows it and no
    file changed.  When it raises, whatever raised (the QR encoder, Pillow,
    the save or the panel driver), no entry of the working directory other
    than [qr.png] has changed, and with a panel none at all. *)
Theorem show_qr_code_outcome (INKY_DISPLAY : option (Z * Z)) (url : string) (w : World) :
  match show_qr_code Q INKY_DISPLAY url w with
  | (Ok _, w') =>
      ∃ canvas,
        im_size canvas = RESOLUTION INKY_DISPLAY ∧ im_mode canvas = "RGB" ∧
        clock w' = clock w ∧
        match INKY_DISPLAY with
        | None =>
            fs w' = <["qr.png" := RFile (Png canvas) (clock w)]> (fs w) ∧
            panel w' = panel w ∧ trace w' = trace w
        | Some _ =>
            fs w' = fs w ∧ panel w' = Some canvas ∧
            trace w' = trace w ++ [PanelShow canvas]
        end
  | (Raise _, w') =>
      (∀ path, path ≠ "qr.png" → fs w' !! path = fs w !! path) ∧
      (is_Some INKY_DISPLAY → fs w' = fs w)
  end.
Proof.
  unfold show_qr_code.
  destruct (qr_make_image Q url) as [e|made]; [done|].
  destruct (white_canvas Q _) as [e|white]; [done|].
  destruct (resize_nearest Q made _) as [e|scaled]; [done|].
  assert ((WIDTH INKY_DISPLAY, HEIGHT INKY_DISPLAY) = RESOLUTION INKY_DISPLAY) as Hres.
  { unfold WIDTH, HEIGHT. by destruct (RESOLUTION INKY_DISPLAY). }
  destruct INKY_DISPLAY as [resolution|].
  - destruct (panel_commit Q w _) as [e|]; [done|].
    eexists. split_and!; cycle 3; [done..|exact Hres|done|done].
  - destruct (canvas_save Q w _) as [[e [entry|]]|].
    + split; [|by intros [? ?]]. intros path Hne. simpl. by rewrite lookup_insert_ne.
    + split; [|by intros [? ?]]. intros path Hne. simpl. by rewrite lookup_delete_ne.
    + eexists. split_and!; cycle 3; [done..|exact Hres|done|done].
Qed.

End ShowQrCodeFacts.

(** ** More on the Photo Fetcher (photos.py) *)

Section FetcherFacts.
Context (R : Remote).

(** Without a usable credential there is no fetch at all: when the record
    file is absent, or holds a record that is not valid,
    [download_latest_photos] returns the empty list and leaves the world as it
    found it: no request, no message, no [photos/] directory created. *)
Theorem download_latest_photos_unauthorised (n : Z) (w : World) :
  (fs w !! "token.json" = None
   ∨ ∃ text mtime creds,
       fs w !! "token.json" = Some (RFile (Bytes text) mtime) ∧
       from_authorized_user_file R w text = inr creds ∧ valid creds = false) →
  download_latest_photos R n w = (Ok [], w).
Proof.
  intros Hrecord. unfold download_latest_photos, get_service, bind.
  assert (_load_credentials R w = (Ok None, w)) as ->; [|done].
  destruct Hrecord as [Habsent|(text & mtime & creds & Hfile & Hparse & Hvalid)].
  - by apply _load_credentials_absent.
  - rewrite (_load_credentials_parsed R w text mtime creds Hfile Hparse). by rewrite Hvalid.
Qed.

(** An error of the listing request is swallowed: the function returns the
    empty list, having created [photos/] if it was missing and printed one
    message, which names the API for an [HttpError] and the download for any
    other exception.  No download is attempted and no photo changes. *)
Theorem listing_error_returns_nothing (n : Z) (w w0 : World) (svc : Credentials) (e : exn) :
  get_service R w = (Ok (Some svc), w0) →
  mediaItems_list R (ensure_download_dir w0) svc n = inl e →
  ∃ w',
    download_latest_photos R n w = (Ok [], w') ∧
    is_Some (fs w' !! DOWNLOAD_DIR) ∧
    (∀ name, photo_node name w' = photo_node name w0) ∧
    trace w' = trace w0 ++
      [ApiList n;
       Print ((if is_HttpError e then "Google Photos API error: "
               else "Error downloading photos: ") +:+ exn_str e)].
Proof.
  intros Hsvc Hlist. unfold download_latest_photos, bind. rewrite Hsvc, Hlist.
  eexists. split; [reflexivity|].
  assert (trace (ensure_download_dir w0) = trace w0) as Htr.
  { unfold ensure_download_dir. by destruct (fs w0 !! DOWNLOAD_DIR). }
  assert (is_Some (fs (ensure_download_dir w0) !! DOWNLOAD_DIR)) as Hdir.
  { unfold ensure_download_dir. destruct (fs w0 !! DOWNLOAD_DIR) eqn:E; simpl.
    - rewrite E. eauto.
    - rewrite lookup_insert_eq. eauto. }
  assert (∀ name, photo_node name (ensure_download_dir w0) = photo_node name w0) as Hnode.
  { intros name. unfold ensure_download_dir, photo_node.
    destruct (fs w0 !! DOWNLOAD_DIR) eqn:E; simpl; rewrite ?E; [done|].
    by rewrite lookup_insert_eq. }
  unfold report. destruct (is_HttpError e); simpl; rewrite Htr, <- app_assoc; done.
Qed.

(** Items that are not images, or lack a base URL or a filename, play no part
    in a batch: the loop gives the same paths, ends the same way and leaves
    the same world as on the listing with those items taken out. *)
Theorem download_items_ignores_other_items (items : list MediaItem) :
  ∀ paths w,
    download_items R items paths w
    = download_items R (filter (λ item, is_Some (downloadable item)) items) paths w.
Proof.
  induction items as [|item rest IH]; intros paths w; [done|].
  rewrite filter_cons. destruct (decide (is_Some (downloadable item))) as [Hd|Hd].
  - simpl. destruct (download_item R item paths w) as [[paths1 [e|]] w1]; [done|apply IH].
  - simpl. unfold download_item.
    destruct (downloadable item) as [d|]; [destruct Hd; eauto|]. apply IH.
Qed.

(** When the file of every item to download is already there, the batch is
    answered from the disk alone: the loop appends the cached paths in the
    order of the listing, makes no request and leaves the world untouched. *)
Theorem download_items_all_cached (items : list MediaItem) (paths : list string) (w : World) :
  (∀ item url name,
     item ∈ items → downloadable item = Some (url, name) → is_Some (photo_node name w)) →
  download_items R items paths w = (paths ++ downloadable_paths items, None, w).
Proof.
  revert paths. induction items as [|item rest IH]; intros paths Hall; simpl.
  { by rewrite app_nil_r. }
  unfold download_item, downloadable_paths. simpl.
  destruct (downloadable item) as [[url name]|] eqn:Hd; simpl.
  - unfold photo_exists.
    rewrite bool_decide_eq_true_2 by (eapply Hall; [left|done]).
    rewrite IH by (intros ? ? ? ?; eapply Hall; by right).
    by rewrite <- app_assoc.
  - apply IH. intros ? ? ? ?. eapply Hall. by right.
Qed.

(** The paths of a batch come in the order of the listing: what the loop
    appends is a sublist of the local paths of the items it does not skip. *)
Theorem download_items_keeps_order (items : list MediaItem) :
  ∀ paths w paths' oe w',
    download_items R items paths w = (paths', oe, w') →
    ∃ new, paths' = paths ++ new ∧ sublist new (downloadable_paths items).
Proof.
  induction items as [|item rest IH]; intros paths w paths' oe w'; simpl download_items.
  { intros [= <- <- <-]. exists []. by rewrite app_nil_r. }
  assert (∃ new1 paths1 oe1 w1,
            download_item R item paths w = (paths1, oe1, w1) ∧ paths1 = paths ++ new1 ∧
            (oe1 = None ∨ new1 = []) ∧
            sublist new1 (downloadable_paths [item])) as
    (new1 & paths1 & oe1 & w1 & Hitem & -> & Hend & Hsub).
  { unfold download_item, downloadable_paths. simpl.
    destruct (downloadable item) as [[url name]|]; simpl.
    2:{ exists []. eexists _, _, _. rewrite app_nil_r. by split_and!; [..|left|]. }
    destruct (photo_exists name w).
    { exists [photo_path name]. eexists _, _, _. by split_and!; [..|left|]. }
    destruct (requests_get R w url) as [e|r].
    { exists []. eexists _, _, _. rewrite app_nil_r.
      split_and!; [done..|by right|apply sublist_nil_l]. }
    destruct (status_code r =? 200)%Z.
    2:{ exists []. eexists _, _, _. rewrite app_nil_r.
        split_and!; [done..|by left|apply sublist_nil_l]. }
    destruct (write_photo name (content r) (emit (HttpGet url name) w)) as [[[]|e] w2].
    - exists [photo_path name]. eexists _, _, _. by split_and!; [..|left|].
    - exists []. eexists _, _, _. rewrite app_nil_r.
      split_and!; [done..|by right|apply sublist_nil_l]. }
  rewrite Hitem.
  assert (downloadable_paths (item :: rest)
          = downloadable_paths [item] ++ downloadable_paths rest) as ->.
  { unfold downloadable_paths. simpl. by destruct (downloadable item). }
  destruct oe1 as [e|].
  - intros [= <- <- <-]. exists new1. split; [done|].
    destruct Hend as [?| ->]; [done|]. apply sublist_nil_l.
  - intros (new2 & -> & Hsub2)%IH. exists (new1 ++ new2).
    split; [by rewrite app_assoc|]. by apply sublist_app.
Qed.

(** A download that succeeds stores what it received: for an item whose
    filename is a single path component, whose file is missing and whose
    request is answered with status 200, the loop writes the body of the
    response to [photos/<filename>], stamped with the current time, appends
    the path and touches no other photo; the one event is the request. *)
Theorem download_item_stores_body (item : MediaItem) (paths : list string) (w : World)
  (url name : string) (r : Response) :
  downloadable item = Some (url, name) →
  plain_name name = true →
  photos_is_dir w →
  photo_node name w = None →
  requests_get R w url = inr r →
  status_code r = 200%Z →
  ∃ w',
    download_item R item paths w = (paths ++ [photo_path name], None, w') ∧
    photo_node name w' = Some (File (Bytes (content r)) (clock w)) ∧
    (∀ other, other ≠ name → photo_node other w' = photo_node other w) ∧
    trace w' = trace w ++ [HttpGet url name].
Proof.
  intros Hd _ [children Hdir] Hnone Hget Hstatus.
  unfold download_item, photo_exists.
  rewrite Hd, Hnone, bool_decide_eq_false_2 by (by intros [? ?]).
  rewrite Hget, Hstatus. simpl.
  destruct (write_photo name (content r) (emit (HttpGet url name) w))
    as [[[]|e] w2] eqn:Ew.
  - exists w2. apply write_photo_ok in Ew as (Hn & Ho & Ht). by split_and!.
  - exfalso. unfold write_photo in Ew. simpl in Ew. rewrite Hdir in Ew.
    unfold photo_node in Hnone. rewrite Hdir in Hnone. by rewrite Hnone in Ew.
Qed.

End FetcherFacts.

Section FetcherOrder.
Context (R : Remote).

(** For a listing whose filenames are single path components,
    [download_latest_photos] returns its paths in the order of the listing:
    they form a sublist of the paths [photos/<filename>] of the listed items
    that are images with a base URL and a filename. *)
Theorem download_latest_photos_keeps_order (n : Z) (w : World)
  (paths : list string) (w' : World) :
  Forall plain_item (listed_items R n w) →
  download_latest_photos R n w = (Ok paths, w') →
  sublist paths (downloadable_paths (listed_items R n w)).
Proof.
  intros _. unfold download_latest_photos, listed_items, bind.
  destruct (get_service R w) as [[[svc|]|e] w0]; [| |done].
  2:{ intros [= <- <-]. apply sublist_nil_l. }
  destruct (mediaItems_list R (ensure_download_dir w0) svc n) as [e|response].
  { intros [= <- <-]. apply sublist_nil_l. }
  destruct (download_items R (default [] response) []
              (emit (ApiList n) (ensure_download_dir w0))) as [[paths1 oe] w3] eqn:E.
  apply download_items_keeps_order in E as (new & -> & Hsub).
  unfold return_paths. destruct oe; by intros [= <- <-].
Qed.

Lemma photos_is_dir_write_photo name c w w' :
  write_photo name c w = (Ok tt, w') → photos_is_dir w'.
Proof.
  unfold write_photo, photos_is_dir.
  destruct (fs w !! DOWNLOAD_DIR) as [[?|children]|]; try discriminate.
  destruct (children !! name) as [[]|]; intros [= <-]; simpl;
    rewrite lookup_insert_eq; eauto.
Qed.

Lemma photos_is_dir_download_item item paths w paths' oe w' :
  download_item R item paths w = (paths', oe, w') → photos_is_dir w → photos_is_dir w'.
Proof.
  unfold download_item.
  destruct (downloadable item) as [[url name]|]; [|by intros [= <- <- <-]].
  destruct (photo_exists name w); [by intros [= <- <- <-]|].
  destruct (requests_get R w url) as [e|r]; [by intros [= <- <- <-]|].
  destruct (status_code r =? 200)%Z; [|by intros [= <- <- <-]].
  destruct (write_photo name (content r) (emit (HttpGet url name) w))
    as [[[]|e] w2] eqn:Ew; intros [= <- <- <-] Hdir.
  - by eapply photos_is_dir_write_photo.
  - by apply write_photo_raise in Ew as ->.
Qed.

Lemma photos_is_dir_download_items items : ∀ paths w paths' oe w',
  download_items R items paths w = (paths', oe, w') → photos_is_dir w → photos_is_dir w'.
Proof.
  induction items as [|item rest IH]; intros paths w paths' oe w'; simpl.
  { by intros [= <- <- <-]. }
  destruct (download_item R item paths w) as [[paths1 oe1] w1] eqn:E1.
  destruct oe1 as [e|].
  - intros [= <- <- <-]. by eapply photos_is_dir_download_item.
  - intros Hrest Hdir. eapply IH; [exact Hrest|]. by eapply photos_is_dir_download_item.
Qed.

Lemma get_service_fs w : fs (get_service R w).2 = fs w.
Proof.
  unfold get_service, bind. pose proof (_load_credentials_world R w) as Hw.
  destruct (_load_credentials R w) as [[[creds|]|e] w0]; simpl in *; subst w0; try done.
  by destruct (build R w creds).
Qed.

(** With a service at hand [get_next_photo] always returns: the fetch has
    made sure that [photos/] is a directory before it is listed.  The one
    thing in the way is a regular file that has the name [photos]. *)
Theorem get_next_photo_returns_with_service (w w0 : World) (svc : Credentials) :
  get_service R w = (Ok (Some svc), w0) →
  (∀ c mtime, fs w !! DOWNLOAD_DIR ≠ Some (RFile c mtime)) →
  ∃ answer w', get_next_photo R w = (Ok answer, w') ∧ photos_is_dir w'.
Proof.
  intros Hsvc Hnofile.
  assert (fs w0 = fs w) as Hfs.
  { pose proof (get_service_fs w) as H. by rewrite Hsvc in H. }
  assert (photos_is_dir (ensure_download_dir w0)) as Hdir.
  { unfold ensure_download_dir, photos_is_dir. rewrite Hfs.
    destruct (fs w !! DOWNLOAD_DIR) as [[c m|children]|] eqn:E.
    - by destruct (Hnofile c m).
    - rewrite Hfs, E. eauto.
    - simpl. rewrite lookup_insert_eq. eauto. }
  assert (∃ paths w1, download_latest_photos R 1 w = (Ok paths, w1) ∧ photos_is_dir w1)
    as (paths & w1 & Hfetch & [children Hdir1]).
  { unfold download_latest_photos, bind. rewrite Hsvc.
    destruct (mediaItems_list R (ensure_download_dir w0) svc 1) as [e|response].
    { eexists _, _. split; [reflexivity|].
      unfold report. by destruct (is_HttpError e). }
    destruct (download_items R (default [] response) []
                (emit (ApiList 1) (ensure_download_dir w0))) as [[paths1 oe] w3] eqn:E.
    apply photos_is_dir_download_items in E; [|done].
    unfold return_paths. destruct oe as [e|]; eexists _, _; (split; [reflexivity|]);
      [|done]. unfold report. by destruct (is_HttpError e). }
  unfold get_next_photo, bind. rewrite Hfetch, Hdir1.
  destruct (omap image_file (map_to_list children));
    eexists _, _; (split; [reflexivity|]); by exists children.
Qed.

End FetcherOrder.

(** ** More on the configuration web service (webapp/app.py) *)

Lemma truthy_Some_iff (s : string) : truthy (Some s) = true ↔ s ≠ EmptyString.
Proof. destruct s; simpl; split; congruence. Qed.

Section HandshakeFacts.
Context (R : Remote) (host_ip : string).

(** The callback handler writes the record file only when it answers with the
    redirect to the status page, and then the file holds the credential that
    the token exchange returned for the nonce of the session, and nothing else
    changed.  When it answers 400, and when it raises because the client
    secret does not load or because the token exchange fails, the world is as
    it was.  Whatever it raises, no entry of the working directory other than
    [token.json] has changed. *)
Theorem oauth2callback_writes_only_on_success (request_url : string)
  (session : gmap string string) (w : World) :
  match oauth2callback R host_ip request_url session w with
  | (Ok response, _, w') =>
      (status response = 400%Z ∧ w' = w ∧ truthy (session !! "state") = false)
      ∨ (response = redirect "/" ∧
         ∃ state creds,
           session !! "state" = Some state ∧ state ≠ EmptyString ∧
           fetch_token R w (redirect_uri host_ip) state request_url = inr creds ∧
           record_text w' = Some (to_json creds) ∧
           (∀ path, path ≠ "token.json" → fs w' !! path = fs w !! path) ∧
           trace w' = trace w ∧ clock w' = clock w)
  | (Raise _, _, w') =>
      (∀ path, path ≠ "token.json" → fs w' !! path = fs w !! path) ∧
      (∀ e, load_flow R w = (Raise e, w) → w' = w) ∧
      (∀ state e,
         session !! "state" = Some state →
         fetch_token R w (redirect_uri host_ip) state request_url = inl e → w' = w)
  end.
Proof.
  unfold oauth2callback.
  destruct (session !! "state") as [[|c rest]|] eqn:Hstate; simpl; [by left| |by left].
  unfold bind.
  destruct (load_flow R w) as [[[]|e] w0] eqn:Hflow.
  2:{ assert (w0 = w) as ->; [|done].
      unfold load_flow in Hflow.
      destruct (fs w !! "client_secret.json") as [[[text|img] m|children]|];
        try congruence.
      destruct (flow_from_client_secrets R text); congruence. }
  assert (w0 = w) as ->.
  { unfold load_flow in Hflow.
    destruct (fs w !! "client_secret.json") as [[[text|img] m|children]|];
      try congruence.
    destruct (flow_from_client_secrets R text); congruence. }
  destruct (fetch_token R w (redirect_uri host_ip) (String c rest) request_url)
    as [e|creds] eqn:Hx.
  { split_and!; [done|done|]. by intros state e' [= <-] _. }
  unfold save_token.
  assert (record_text (write_root "token.json" (Bytes (to_json creds))
                         (open_truncate "token.json" w)) = Some (to_json creds)
          ∧ ∀ path, path ≠ "token.json" →
              fs (write_root "token.json" (Bytes (to_json creds))
                    (open_truncate "token.json" w)) !! path = fs w !! path) as [Hrec Hrest].
  { unfold record_text, write_root, open_truncate. simpl.
    rewrite lookup_insert_eq. split; [done|].
    intros path Hne. by rewrite !lookup_insert_ne. }
  destruct (fs w !! "token.json") as [[old stamp|entries]|];
    [|split_and!; [done|congruence|intros state e' [= <-]; congruence]|];
    right; (split; [done|]); exists (String c rest), creds; by split_and!.
Qed.

(** The whole handshake.  From a session without nonce, the begin step
    redirects to the consent page and the callback that follows exchanges the
    nonce it stored, saves the credential and redirects to the status page;
    after that the record file is there, and the loader returns the
    credential as soon as the library reads back what it serialised as a valid
    credential. *)
Theorem handshake_stores_usable_credential (request_url : string)
  (session : gmap string string) (w : World)
  (text : string) (mtime : Z) (consent state : string) (creds : Credentials) :
  fs w !! "client_secret.json" = Some (RFile (Bytes text) mtime) →
  flow_from_client_secrets R text = None →
  authorization_url R w (redirect_uri host_ip) = (consent, state) →
  state ≠ EmptyString →
  fetch_token R w (redirect_uri host_ip) state request_url = inr creds →
  (∀ children, fs w !! "token.json" ≠ Some (RDir children)) →
  let begun := google_auth R host_ip session w in
  let finished := oauth2callback R host_ip request_url begun.1.2 begun.2 in
  begun.1.1 = Ok (redirect consent) ∧
  finished.1.1 = Ok (redirect "/") ∧
  record_text finished.2 = Some (to_json creds) ∧
  ∀ creds',
    from_authorized_user_file R finished.2 (to_json creds) = inr creds' →
    valid creds' = true →
    _load_credentials R finished.2 = (Ok (Some creds'), finished.2).
Proof.
  intros Hsecret Hflow Hauth Hstate Hexchange Hnodir. cbv zeta.
  destruct state as [|c rest]; [done|].
  assert (google_auth R host_ip session w
          = (Ok (redirect consent), <["state" := String c rest]> session, w)) as ->.
  { unfold google_auth, load_flow. by rewrite Hsecret, Hflow, Hauth. }
  simpl.
  assert (oauth2callback R host_ip request_url (<["state" := String c rest]> session) w
          = (Ok (redirect "/"), <["state" := String c rest]> session,
             write_root "token.json" (Bytes (to_json creds))
               (open_truncate "token.json" w))) as ->.
  { unfold oauth2callback. rewrite lookup_insert_eq. simpl.
    unfold bind, load_flow. rewrite Hsecret, Hflow. simpl. rewrite Hexchange.
    unfold save_token.
    destruct (fs w !! "token.json") as [[old stamp|entries]|] eqn:E; [done| |done].
    by destruct (Hnodir entries). }
  simpl.
  assert (fs (write_root "token.json" (Bytes (to_json creds))
                (open_truncate "token.json" w)) !! "token.json"
          = Some (RFile (Bytes (to_json creds)) (clock w))) as Hfile.
  { unfold write_root, open_truncate. simpl. by rewrite lookup_insert_eq. }
  split_and!; [done..| |].
  - unfold record_text. by rewrite Hfile.
  - intros creds' Hparse Hvalid.
    rewrite (_load_credentials_parsed R _ _ _ _ Hfile Hparse). by rewrite Hvalid.
Qed.

End HandshakeFacts.

(** An instance of the handshake, on the test doubles. *)
Lemma handshake_stores_usable_credential_witness :
  let R := Fake.remote [] Fake.ok_200 in
  let url := "http://10.0.0.2:5000/oauth2callback?state=nonce-1&code=c" in
  let begun := google_auth R "10.0.0.2" ∅ Fake.fresh in
  let finished := oauth2callback R "10.0.0.2" url begun.1.2 begun.2 in
  finished.1.1 = Ok (redirect "/") ∧
  _load_credentials R finished.2 = (Ok (Some Fake.creds), finished.2).
Proof.
  cbv zeta.
  destruct (handshake_stores_usable_credential (Fake.remote [] Fake.ok_200) "10.0.0.2"
              "http://10.0.0.2:5000/oauth2callback?state=nonce-1&code=c"
              ∅ Fake.fresh "{secret}" 0
              "https://accounts.google.com/o/oauth2/auth" "nonce-1" Fake.creds)
    as (_ & Hdone & _ & Hload).
  - vm_compute; reflexivity.
  - reflexivity.
  - reflexivity.
  - discriminate.
  - reflexivity.
  - intros children. vm_compute. discriminate.
  - split; [exact Hdone|]. apply Hload; reflexivity.
Defined.

(** ** More on the display loop (display.py) *)

Section LoopFacts.
Context (R : Remote) (INKY_DISPLAY : option (Z * Z)).

Lemma show_photo_clock path w : clock (show_photo R INKY_DISPLAY path w) = clock w.
Proof.
  unfold show_photo, bind, Image_open.
  assert (∀ img msg,
            clock match display_image R INKY_DISPLAY (convert R img "RGB") w with
                  | (Ok _, w') => w'
                  | (Raise exc, w') => print (msg exc) w'
                  end = clock w) as Hshow.
  { intros img msg. unfold display_image, image_save. destruct INKY_DISPLAY; [done|].
    by destruct (fs w !! "latest_display.png") as [[]|]. }
  destruct (stat path w) as [[[b|img] m|]|]; [|apply (Hshow img (λ exc, _))|done..].
  destruct (image_open R b) as [e|img]; [done|apply (Hshow img (λ exc, _))].
Qed.

Lemma get_next_photo_path w path w' :
  get_next_photo R w = (Ok (Some path), w') → ∃ name, path = photo_path name.
Proof.
  unfold get_next_photo, bind.
  destruct (download_latest_photos R 1 w) as [[paths|e] w1]; [|done].
  destruct (fs w1 !! DOWNLOAD_DIR) as [[c m|children]|]; [done| |done].
  destruct (omap image_file (map_to_list children)); [done|].
  intros [= <- <-]. eauto.
Qed.

(** Nothing that goes wrong with a photo ends the loop.  When the fetcher
    has returned and the interval is one that [time.sleep] takes (not
    negative, at most [SLEEP_MAX] seconds), a turn of the main loop ends in
    the main loop after a sleep of the whole interval: with no photo it has
    printed that none was downloaded yet, and with a photo that cannot be
    opened it has printed the failure. *)
Theorem main_loop_survives_display (interval_seconds : Z) (w : World)
  (photo : option string) (w1 : World) :
  get_next_photo R (emit CallFetcher w) = (Ok photo, w1) →
  (0 ≤ interval_seconds ≤ SLEEP_MAX)%Z →
  ∃ w2,
    loop_step R INKY_DISPLAY interval_seconds (MainLoop, w)
    = (MainLoop, asleep R interval_seconds w2) ∧
    clock w2 = clock w1 ∧
    (photo = None → w2 = print "No photos downloaded yet." w1) ∧
    (∀ path exc,
       photo = Some path → is_Some (stat path w1) →
       Image_open R path w1 = (Raise exc, w1) →
       w2 = print ("Failed to display " +:+ path +:+ ": " +:+ exn_str exc) w1).
Proof.
  intros Hnext [Hinterval _]. unfold loop_step, iteration, bind. rewrite Hnext.
  assert (time_sleep R interval_seconds = λ w2, (Ok tt, asleep R interval_seconds w2))
    as Hsleep.
  { unfold time_sleep. by rewrite (proj2 (Z.ltb_ge _ _) Hinterval). }
  destruct photo as [path|].
  - destruct (truthy (Some path) && bool_decide (is_Some (stat path w1))) eqn:Hshown.
    + exists (show_photo R INKY_DISPLAY path w1). rewrite Hsleep.
      split_and!; [done|apply show_photo_clock|done|].
      intros ? exc [= <-] _ Hopen. unfold show_photo, bind. by rewrite Hopen.
    + exists (print "No photos downloaded yet." w1). rewrite Hsleep.
      split_and!; [done..|].
      intros ? exc [= <-] Hstat Hopen. exfalso.
      apply andb_false_iff in Hshown as [Htruthy|Hstat'].
      * apply get_next_photo_path in Hnext as [name ->]. discriminate.
      * by rewrite bool_decide_eq_true_2 in Hstat'.
  - exists (print "No photos downloaded yet." w1). rewrite Hsleep. by split_and!.
Qed.

End LoopFacts.

(** ** Image suffixes *)

Lemma lower_ascii_not_dot c :
  Ascii.eqb (lower_ascii c) "."%char = Ascii.eqb c "."%char.
Proof.
  destruct c as [[] [] [] [] [] [] [] []]; reflexivity.
Qed.

Lemma lower_ascii_idemp c : lower_ascii (lower_ascii c) = lower_ascii c.
Proof.
  destruct c as [[] [] [] [] [] [] [] []]; reflexivity.
Qed.

Lemma lower_idemp s : lower (lower s) = lower s.
Proof. induction s as [|c s IH]; simpl; [done|]. by rewrite lower_ascii_idemp, IH. Qed.

Lemma lower_length s : String.length (lower s) = String.length s.
Proof. induction s as [|c s IH]; simpl; [done|]. by rewrite IH. Qed.

Lemma from_last_dot_lower s : from_last_dot (lower s) = lower <$> from_last_dot s.
Proof.
  induction s as [|c s IH]; simpl; [done|].
  rewrite IH. destruct (from_last_dot s); simpl; [done|].
  rewrite lower_ascii_not_dot. by destruct (Ascii.eqb c "."%char).
Qed.

Lemma path_suffix_lower name : path_suffix (lower name) = lower (path_suffix name).
Proof.
  destruct name as [|c rest]; simpl; [done|].
  rewrite from_last_dot_lower. destruct (from_last_dot rest) as [t|]; simpl; [|done].
  rewrite lower_length. by destruct (1 <? String.length t).
Qed.

Lemma from_last_dot_split s t :
  from_last_dot s = Some t → ∃ stem, s = stem +:+ t.
Proof.
  revert t. induction s as [|c s IH]; intros t; simpl; [done|].
  destruct (from_last_dot s) as [t'|].
  - intros [= <-]. destruct (IH t' eq_refl) as [stem ->]. by exists (String c stem).
  - destruct (Ascii.eqb c "."%char); [|done]. intros [= <-]. by exists EmptyString.
Qed.

(** The test on the suffix looks at the part of the name from its last dot on
    and ignores the case of letters: a name and its lower-case form are
    classified alike, and a name that passes has a stem that is not empty
    before a suffix that reads [.jpg], [.jpeg] or [.png] in lower case; a file
    called just [.png] is no image. *)
Theorem suffix_is_image_spec (name : string) :
  suffix_is_image (lower name) = suffix_is_image name ∧
  (suffix_is_image name = true →
   ∃ stem ext,
     name = stem +:+ ext ∧ stem ≠ EmptyString ∧
     (lower ext = ".jpg" ∨ lower ext = ".jpeg" ∨ lower ext = ".png")).
Proof.
  split.
  - unfold suffix_is_image. by rewrite path_suffix_lower, lower_idemp.
  - unfold suffix_is_image. intros Himg.
    assert (lower (path_suffix name) = ".jpg" ∨ lower (path_suffix name) = ".jpeg"
            ∨ lower (path_suffix name) = ".png") as Hext.
    { apply orb_true_iff in Himg as [Himg|Himg];
        [apply orb_true_iff in Himg as [Himg|Himg]|];
        apply String.eqb_eq in Himg; auto. }
    destruct name as [|c rest]; simpl in *.
    { destruct Hext as [?|[?|?]]; discriminate. }
    destruct (from_last_dot rest) as [t|] eqn:Hdot.
    2:{ destruct Hext as [?|[?|?]]; discriminate. }
    destruct (1 <? String.length t).
    2:{ destruct Hext as [?|[?|?]]; discriminate. }
    apply from_last_dot_split in Hdot as [stem ->].
    by exists (String c stem), t.
Qed.

(** ** Instances on the test doubles *)

(** A record that is out of date: nothing is fetched and nothing changes. *)
Lemma download_latest_photos_unauthorised_witness :
  download_latest_photos (Fake.remote [Fake.jpeg "a.jpg"] Fake.ok_200) 5 Fake.stale
  = (Ok [], Fake.stale).
Proof.
  apply (download_latest_photos_unauthorised
           (Fake.remote [Fake.jpeg "a.jpg"] Fake.ok_200) 5 Fake.stale).
  right. exists "expired", 0%Z, {| valid := false; to_json := "expired" |}.
  split_and!; vm_compute; reflexivity.
Defined.

(** A listing that fails with an [HttpError]. *)
Lemma listing_error_returns_nothing_witness :
  ∃ w',
    download_latest_photos (failing_listing (HttpError "quota exceeded")) 5 Fake.authorized
    = (Ok [], w') ∧
    is_Some (fs w' !! DOWNLOAD_DIR) ∧
    (∀ name, photo_node name w' = photo_node name Fake.authorized) ∧
    trace w' = trace Fake.authorized ++
      [ApiList 5; Print ("Google Photos API error: " +:+ "quota exceeded")].
Proof.
  apply (listing_error_returns_nothing (failing_listing (HttpError "quota exceeded"))
           5 Fake.authorized Fake.authorized Fake.creds (HttpError "quota exceeded"));
    vm_compute; reflexivity.
Defined.

(** A listing of the one photo that is on disk. *)
Lemma download_items_all_cached_witness :
  download_items (Fake.remote [] Fake.ok_200) [Fake.jpeg "old.png"] [] Fake.cached
  = ([] ++ downloadable_paths [Fake.jpeg "old.png"], None, Fake.cached).
Proof.
  apply (download_items_all_cached (Fake.remote [] Fake.ok_200)
           [Fake.jpeg "old.png"] [] Fake.cached).
  intros item url name Hin%list_elem_of_singleton Hd. subst item.
  vm_compute in Hd. injection Hd as <- <-. vm_compute. eauto.
Defined.

(** A photo that is not on disk yet and downloads well. *)
Lemma download_item_stores_body_witness :
  ∃ w',
    download_item (Fake.remote [] Fake.ok_200) (Fake.jpeg "a.jpg") [] Fake.cached
    = ([] ++ [photo_path "a.jpg"], None, w') ∧
    photo_node "a.jpg" w'
    = Some (File (Bytes (content {| status_code := 200;
                                    content := "bytes of https://lh3.test/a.jpg=d" |}))
              (clock Fake.cached)) ∧
    (∀ other, other ≠ "a.jpg" → photo_node other w' = photo_node other Fake.cached) ∧
    trace w' = trace Fake.cached ++ [HttpGet "https://lh3.test/a.jpg=d" "a.jpg"].
Proof.
  apply (download_item_stores_body (Fake.remote [] Fake.ok_200) (Fake.jpeg "a.jpg") []
           Fake.cached "https://lh3.test/a.jpg=d" "a.jpg").
  - vm_compute; reflexivity.
  - reflexivity.
  - vm_compute. eexists. reflexivity.
  - vm_compute; reflexivity.
  - vm_compute; reflexivity.
  - reflexivity.
Defined.

(** Two photos, returned in the order of the listing. *)
Lemma download_latest_photos_keeps_order_witness :
  let R := Fake.remote [Fake.jpeg "a.jpg"; Fake.jpeg "b.jpg"] Fake.ok_200 in
  sublist ["photos/a.jpg"; "photos/b.jpg"]
    (downloadable_paths (listed_items R 2 Fake.authorized)).
Proof.
  apply (download_latest_photos_keeps_order
           (Fake.remote [Fake.jpeg "a.jpg"; Fake.jpeg "b.jpg"] Fake.ok_200)
           2 Fake.authorized ["photos/a.jpg"; "photos/b.jpg"]
           (download_latest_photos
              (Fake.remote [Fake.jpeg "a.jpg"; Fake.jpeg "b.jpg"] Fake.ok_200)
              2 Fake.authorized).2).
  - repeat constructor; intros url name Hd; vm_compute in Hd;
      injection Hd as <- <-; reflexivity.
  - vm_compute; reflexivity.
Defined.

(** An authorised frame that has no [photos/] directory yet. *)
Lemma get_next_photo_returns_with_service_witness :
  ∃ answer w',
    get_next_photo (Fake.remote [] Fake.ok_200) Fake.authorized = (Ok answer, w') ∧
    photos_is_dir w'.
Proof.
  apply (get_next_photo_returns_with_service (Fake.remote [] Fake.ok_200)
           Fake.authorized Fake.authorized Fake.creds).
  - vm_compute; reflexivity.
  - intros c mtime. vm_compute. discriminate.
Defined.

(** Two pictures shown one after the other without a panel. *)
Lemma display_image_headless_overwrites_witness :
  let R := Fake.remote [] Fake.ok_200 in
  let w1 := (display_image R None portrait Fake.authorized).2 in
  let w2 := (display_image R None Fake.pixel w1).2 in
  dom (fs w2) = dom (fs w1) ∧
  fs w2 !! "latest_display.png" = Some (RFile (Png Fake.pixel) (clock w1)) ∧
  ∀ path, path ≠ "latest_display.png" → fs w2 !! path = fs w1 !! path.
Proof.
  cbv zeta.
  apply (display_image_headless_overwrites (Fake.remote [] Fake.ok_200)
           portrait Fake.pixel Fake.authorized); vm_compute; reflexivity.
Defined.

(** A photo on disk that Pillow cannot read. *)
Lemma main_loop_survives_display_witness :
  let w1 := (get_next_photo undecodable (emit CallFetcher Fake.cached)).2 in
  loop_step undecodable None 3600 (MainLoop, Fake.cached)
  = (MainLoop,
     asleep undecodable 3600
       (print ("Failed to display " +:+ "photos/old.png" +:+ ": " +:+
               exn_str (OtherException "cannot identify image file")) w1)).
Proof.
  cbv zeta.
  destruct (main_loop_survives_display undecodable None 3600 Fake.cached
              (Some "photos/old.png")
              (get_next_photo undecodable (emit CallFetcher Fake.cached)).2)
    as (w2 & Hstep & _ & _ & Hfail).
  - vm_compute; reflexivity.
  - unfold SLEEP_MAX. lia.
  - rewrite Hstep.
    rewrite (Hfail "photos/old.png" (OtherException "cannot identify image file"));
      [reflexivity|reflexivity| |].
    + vm_compute. eexists. reflexivity.
    + vm_compute; reflexivity.
Defined.

(** ** A service that cannot be built *)

(** A failure to build the service is printed and not raised: with a valid
    record, [get_service] answers [None] after one message, and
    [download_latest_photos] then returns the empty list without creating
    [photos/] or asking the network for anything. *)
Theorem build_failure_is_not_raised (R : Remote) (n : Z) (w : World)
  (text : string) (mtime : Z) (creds : Credentials) (exc : exn) :
  fs w !! "token.json" = Some (RFile (Bytes text) mtime) →
  from_authorized_user_file R w text = inr creds →
  valid creds = true →
  build R w creds = Some exc →
  let said := print ("Failed to build Google Photos service: " +:+ exn_str exc) w in
  get_service R w = (Ok None, said) ∧
  download_latest_photos R n w = (Ok [], said).
Proof.
  intros Hfile Hparse Hvalid Hbuild. cbv zeta.
  assert (get_service R w
          = (Ok None, print ("Failed to build Google Photos service: " +:+ exn_str exc) w))
    as Hservice.
  { unfold get_service, bind.
    rewrite (_load_credentials_parsed R w text mtime creds Hfile Hparse), Hvalid.
    by rewrite Hbuild. }
  split; [done|]. unfold download_latest_photos, bind. by rewrite Hservice.
Qed.

(** The discovery document cannot be fetched. *)
Lemma build_failure_is_not_raised_witness :
  let R := failing_build (OtherException "network is unreachable") in
  let said := print ("Failed to build Google Photos service: " +:+
                     "network is unreachable") Fake.authorized in
  get_service R Fake.authorized = (Ok None, said) ∧
  download_latest_photos R 5 Fake.authorized = (Ok [], said).
Proof.
  apply (build_failure_is_not_raised (failing_build (OtherException "network is unreachable"))
           5 Fake.authorized "{token}" 0 {| valid := true; to_json := "{token}" |}
           (OtherException "network is unreachable")); vm_compute; reflexivity.
Defined.
